(** * The IDE client: task orchestration and load lifecycle

    A shallow embedding of [packages/ide/src/client.ts]: the [Client] class
    with its [task] method (an async function, embedded as a coroutine that the
    event loop resumes at each [await]) and the load lifecycle started by the
    constructor ([initialize().then(..).catch(..)]). *)

From Stdlib Require Import Ascii QArith Qround Qpower Lqa Uint63 Floats.
From stdpp Require Import base numbers list strings pretty.

Local Open Scope string_scope.
Local Open Scope list_scope.
Local Open Scope Z_scope.

(** ** The JavaScript runtime the class relies on *)

Module Js.

(** Runtime values that flow through [task]: TypeScript erases the type
    parameters, so resolved values and rejection reasons are plain [any]. *)
Inductive any : Type :=
| undefined
| number (n : Z)
| str (s : string)
| Error (message : string).

(** The state a promise ends in. *)
Inductive settled : Type :=
| Fulfilled (v : any)
| Rejected (e : any).

(** [Array.prototype.indexOf] on an array of strings: the position of the
    first element strictly equal to [x], or [-1]. *)
Fixpoint indexOf (x : string) (l : list string) : Z :=
  match l with
  | [] => -1
  | y :: l' =>
      if decide (y = x) then 0
      else let i := indexOf x l' in if decide (i = -1) then -1 else i + 1
  end.

(** [Array.prototype.splice(index, 1)]: a negative [index] counts from the
    end, an [index] past the end removes nothing. *)
Definition splice1 {A} (index : Z) (l : list A) : list A :=
  let len := Z.of_nat (length l) in
  let from := if decide (index < 0) then Z.max (len + index) 0 else Z.min index len in
  delete (Z.to_nat from) l.

(** *** Numbers

    A JavaScript number is an IEEE 754 double: every arithmetic operation
    returns the double nearest to the exact result, ties going to the one
    with an even significand. The exact results are rationals here, and
    [binary64] is that rounding: a significand of 53 bits, exponents from
    -1074 (gradual underflow). Overflow to [Infinity] takes magnitudes from
    2^1024, which the percentages computed by [task] stay far below, and is
    not modelled. *)

(** The integer part of the binary logarithm of a positive rational. *)
Definition ilog2 (x : Q) : Z :=
  let k := Z.log2 (Qnum x) - Z.log2 (Zpos (Qden x)) in
  if Qle_bool (2 ^ k) x then k else k - 1.

(** The nearest integer, a tie going to the even one. *)
Definition nearest_even (x : Q) : Z :=
  let q := Qfloor x in
  match (x - inject_Z q ?= 1 # 2)%Q with
  | Lt => q
  | Gt => q + 1
  | Eq => if Z.even q then q else q + 1
  end.

(** The weight of the last bit of the significand of a positive [x]. *)
Definition exponent (x : Q) : Z := Z.max (ilog2 x - 52) (-1074).

Definition nearest64 (x : Q) : Q :=
  (inject_Z (nearest_even (x / 2 ^ exponent x)) * 2 ^ exponent x)%Q.

Definition binary64 (x : Q) : Q :=
  if Qle_bool x 0 then (if Qle_bool 0 x then 0 else - nearest64 (- x))%Q
  else nearest64 x.

(** The operators [/] (for a divisor other than 0) and [*]. *)
Definition divide (x y : Q) : Q := binary64 (x / y).
Definition times (x y : Q) : Q := binary64 (x * y).

(** [Math.round]: the nearest integer, a tie going upwards. *)
Definition Math_round (x : Q) : Z := Qfloor (x + (1 # 2)).

(** What [Math.round((a / b) * 100)] evaluates to for numbers [a] and [b]
    that hold integers (a double holds every integer up to 2^53 exactly, so
    the operands are taken as they are): the quotient is rounded to a double,
    so is its product with 100, and [Math.round] is applied to that. Dividing
    by 0 gives [NaN] for 0 / 0 and an infinity otherwise, which the
    multiplication and [Math.round] pass on. *)
Inductive rounded : Type :=
| Int (n : Z)
| NaN
| Infinity (negative : bool).

Definition round_percent (a b : Z) : rounded :=
  if decide (b = 0) then
    (if decide (a = 0) then NaN else Infinity (bool_decide (a < 0)))
  else Int (Math_round (times (divide (inject_Z a) (inject_Z b)) 100)).

(** The same expression on the floats of the proof assistant, which are
    the doubles of the machine: the value of [(a / b) * 100] before
    [Math.round], when it is finite. *)
Definition of_float (f : float) : option Q :=
  match Prim2SF f with
  | S754_zero _ => Some 0%Q
  | S754_finite negative m e =>
      Some ((if negative then -1 else 1) * inject_Z (Zpos m) * 2 ^ e)%Q
  | _ => None
  end.

Definition float_of (n : Z) : float := PrimFloat.of_uint63 (Uint63.of_Z n).

Definition machine_percent (a b : Z) : option Q :=
  of_float (PrimFloat.mul (PrimFloat.div (float_of a) (float_of b)) (float_of 100)).

Definition as_the_machine (a b : Z) : bool :=
  match machine_percent a b with
  | Some x => Qeq_bool x (times (divide (inject_Z a) (inject_Z b)) 100)
  | None => false
  end.

(** Template-literal conversion of such a number. *)
Definition to_string (r : rounded) : string :=
  match r with
  | Int n => pretty n
  | NaN => "NaN"
  | Infinity false => "Infinity"
  | Infinity true => "-Infinity"
  end.

(** [Promise.all]. Promises are named by numbers; [before] lists the ones
    already settled when [Promise.all] is called and [later] the ones settled
    since, both oldest first. Reactions of inputs that were already settled
    are queued in argument order, the others run as their input settles; the
    first rejection to react rejects the combined promise, and it fulfils
    with the values in argument order once every input is fulfilled. *)
Inductive combined : Type :=
| AllPending
| AllFulfilled (values : list any)
| AllRejected (e : any).

Fixpoint state_of (p : nat) (hist : list (nat * settled)) : option settled :=
  match hist with
  | [] => None
  | (q, o) :: hist' => if decide (q = p) then Some o else state_of p hist'
  end.

Fixpoint rejected_input (inputs : list nat) (before : list (nat * settled)) : option any :=
  match inputs with
  | [] => None
  | p :: inputs' =>
      match state_of p before with
      | Some (Rejected e) => Some e
      | _ => rejected_input inputs' before
      end
  end.

Fixpoint rejection_since (inputs : list nat) (later : list (nat * settled)) : option any :=
  match later with
  | [] => None
  | (p, Rejected e) :: later' =>
      if decide (p ∈ inputs) then Some e else rejection_since inputs later'
  | _ :: later' => rejection_since inputs later'
  end.

Fixpoint values_of (inputs : list nat) (hist : list (nat * settled)) : option (list any) :=
  match inputs with
  | [] => Some []
  | p :: inputs' =>
      match state_of p hist with
      | Some (Fulfilled v) => cons v <$> values_of inputs' hist
      | _ => None
      end
  end.

Definition Promise_all (inputs : list nat) (before later : list (nat * settled)) : combined :=
  match rejected_input inputs before with
  | Some e => AllRejected e
  | None =>
      match rejection_since inputs later with
      | Some e => AllRejected e
      | None =>
          match values_of inputs (before ++ later) with
          | Some values => AllFulfilled values
          | None => AllPending
          end
      end
  end.

End Js.

(** ** Collaborators: the logger and the DOM *)

(** [time(expected)] of the logger: a timer with a budget in milliseconds
    (the wall-clock stamp it also takes is not modelled). *)
Record Time : Type := time { expected : Z }.

Inductive field_value : Type :=
| of_time (t : Time)
| of_text (s : string)
| of_number (n : Z)
| of_any (a : Js.any)
| of_undefined.

Record Field : Type := field { identifier : string; value : field_value }.

(** What a step of the client does to the outside world, in order. *)
Inductive effect : Type :=
| logger_info (msg : string) (fields : list Field)
| logger_warn (msg : string) (fields : list Field)
| logger_error (msg : string) (fields : list Field)
| style_width (v : string)
| style_backgroundColor (v : string).

(** The [#fill] element, as far as [task] touches it. *)
Record HTMLElement : Type := mkElement {
  width : string;
  backgroundColor : string
}.

Definition quoted (s : string) : string :=
  String "034"%char s +:+ String "034"%char EmptyString.

(** ** The fields of [Client] that [task] reads and writes

    [finishedTaskCount] is a JavaScript number that only ever counts up by
    one from 0; it is an integer here (doubles are exact for every count
    below 2^53). *)

Record Client : Type := mkClient {
  start : option Time;
  progressElement : option HTMLElement;
  tasks : list string;
  finishedTaskCount : Z
}.

(** A freshly constructed client; [fill] is what
    [document.querySelector("#fill")] found. *)
Definition new_client (fill : option HTMLElement) : Client :=
  {| start := None; progressElement := fill; tasks := []; finishedTaskCount := 0 |}.

(** The number in the template literal of line 130; the sum of the two
    counts is an integer below 2^53, which the addition gives exactly. *)
Definition percentage (c : Client) : Js.rounded :=
  Js.round_percent (finishedTaskCount c)
    (Z.of_nat (length (tasks c)) + finishedTaskCount c).

(** Lines 128-132. *)
Definition updateProgress (c : Client) : Client * list effect :=
  match progressElement c with
  | Some el =>
      let w := Js.to_string (percentage c) +:+ "%" in
      ({| start := start c;
          progressElement := Some {| width := w; backgroundColor := backgroundColor el |};
          tasks := tasks c;
          finishedTaskCount := finishedTaskCount c |},
       [style_width w])
  | None => (c, [])
  end.

(** Lines 124-127: the description is pushed and the session timer started
    if there is none. *)
Definition register (description : string) (c : Client) : Client :=
  {| start := match start c with Some t => Some t | None => Some (time 1000) end;
     progressElement := progressElement c;
     tasks := tasks c ++ [description];
     finishedTaskCount := finishedTaskCount c |}.

(** Lines 124-133: everything [task] does before its first [await]. *)
Definition task_enter (description : string) (c : Client) : Client * list effect :=
  updateProgress (register description c).

(** Lines 142-146. The increment is exact: [++] adds 1 to a double without
    rounding for every count below 2^53. *)
Definition complete (description : string) (c : Client) : Client :=
  let index := Js.indexOf description (tasks c) in
  {| start := start c;
     progressElement := progressElement c;
     tasks := if decide (index ≠ -1) then Js.splice1 index (tasks c) else tasks c;
     finishedTaskCount := finishedTaskCount c + 1 |}.

(** Lines 141-153: the continuation after [await task(...waitFor)] resolved. *)
Definition task_finished (description : string) (started : Time) (c : Client)
  : Client * list effect :=
  let fx1 := [logger_info ("Finished " +:+ quoted description)
                [field "duration" (of_time started)]] in
  let '(c1, fx2) := updateProgress (complete description c) in
  if decide (length (tasks c1) = 0%nat) then
    ({| start := None;
        progressElement := progressElement c1;
        tasks := tasks c1;
        finishedTaskCount := finishedTaskCount c1 |},
     fx1 ++ fx2 ++
     [logger_info "Finished all queued tasks"
        [field "duration" (match start c1 with Some t => of_time t | None => of_undefined end);
         field "count" (of_number (finishedTaskCount c1))]])
  else (c1, fx1 ++ fx2).

(** Lines 154-160: the [catch] block; [started] is the local [start], still
    undefined when the dependencies rejected. *)
Definition task_failed (description : string) (started : option Time) (error : Js.any)
    (c : Client) : Client * list effect :=
  let fx := [logger_error ("Failed " +:+ quoted description)
               [field "duration"
                  (match started with Some t => of_time t | None => of_text "not started" end);
                field "error" (of_any error)]] in
  match progressElement c with
  | Some el =>
      ({| start := start c;
          progressElement := Some {| width := width el; backgroundColor := "red" |};
          tasks := tasks c;
          finishedTaskCount := finishedTaskCount c |},
       fx ++ [style_backgroundColor "red"])
  | None => (c, fx)
  end.

(** ** Invocations of [task] on the event loop

    A call of the async function runs to its first [await] and returns a
    promise; the event loop later resumes it, once per [await]. *)

(** Calling the work function either throws or returns a promise, of which
    the model keeps the state it will settle in. *)
Inductive work_result : Type :=
| Throws (e : Js.any)
| Returns (p : Js.settled).

(** Where an invocation stands: suspended at line 137 on its dependencies
    ([since] promises had settled when it was called), suspended at line 140
    on the promise the work function returned, or returned, with the state
    in which the promise that [task] returned has settled. *)
Inductive frame : Type :=
| AwaitDeps (duration : Z) (task : list Js.any → work_result) (after : list nat) (since : nat)
| AwaitTask (started : Time) (p : Js.settled)
| Returned (outcome : Js.settled).

Record invocation : Type := mkInvocation {
  description : string;
  at_ : frame
}.

(** The client, the promises passed as dependencies that have settled so
    far (oldest first), and every call of [task] in call order. A dependency
    may be any promise, also one that another call of [task] returned; the
    events decide when and how it settles. *)
Record System : Type := mkSystem {
  client : Client;
  promises : list (nat * Js.settled);
  invocations : list invocation
}.

Definition boot (fill : option HTMLElement) : System :=
  {| client := new_client fill; promises := []; invocations := [] |}.

(** What happens on the event loop: [task] is called, a dependency
    settles, or invocation [i] is resumed at its [await]. *)
Inductive event : Type :=
| Call (description : string) (duration : option Z)
    (task : list Js.any → work_result) (after : list nat)
| Settle (p : nat) (o : Js.settled)
| Resume (i : nat).

(** Line 137: what the first [await] waits for. *)
Definition awaited (after : list nat) (since : nat) (hist : list (nat * Js.settled))
  : Js.combined :=
  if decide (0 < length after)%nat
  then Js.Promise_all after (take since hist) (drop since hist)
  else Js.AllFulfilled [].

(** Resuming an invocation at its [await]: [None] while the awaited promise
    is pending or when the invocation has already returned. The work function
    is known by what its call at line 140 comes to for the awaited values: it
    throws, or returns a promise. A work function that calls [task] itself
    does so within this resumption; here such a call is a [Call] event of its
    own, which follows the resumption. *)
Definition task_resume (description : string) (fr : frame)
    (hist : list (nat * Js.settled)) (c : Client) : option (Client * list effect * frame) :=
  match fr with
  | AwaitDeps duration task after since =>
      match awaited after since hist with
      | Js.AllPending => None
      | Js.AllFulfilled waitFor =>
          let started := time duration in
          let fx := [logger_info description []] in
          match task waitFor with
          | Returns p => Some (c, fx, AwaitTask started p)
          | Throws error =>
              let '(c', fx') := task_failed description (Some started) error c in
              Some (c', fx ++ fx', Returned (Js.Rejected error))
          end
      | Js.AllRejected error =>
          let '(c', fx) := task_failed description None error c in
          Some (c', fx, Returned (Js.Rejected error))
      end
  | AwaitTask started p =>
      match p with
      | Js.Fulfilled value =>
          let '(c', fx) := task_finished description started c in
          Some (c', fx, Returned (Js.Fulfilled value))
      | Js.Rejected error =>
          let '(c', fx) := task_failed description (Some started) error c in
          Some (c', fx, Returned (Js.Rejected error))
      end
  | Returned _ => None
  end.

Definition step (s : System) (ev : event) : option (System * list effect) :=
  match ev with
  | Call description duration task after =>
      let '(c, fx) := task_enter description (client s) in
      Some ({| client := c;
               promises := promises s;
               invocations := invocations s ++
                 [{| description := description;
                     at_ := AwaitDeps (default 100 duration) task after (length (promises s)) |}] |},
            fx)
  | Settle p o =>
      match Js.state_of p (promises s) with
      | Some _ => None
      | None =>
          Some ({| client := client s;
                   promises := promises s ++ [(p, o)];
                   invocations := invocations s |}, [])
      end
  | Resume i =>
      match invocations s !! i with
      | None => None
      | Some inv =>
          match task_resume (description inv) (at_ inv) (promises s) (client s) with
          | None => None
          | Some (c, fx, fr) =>
              Some ({| client := c;
                       promises := promises s;
                       invocations :=
                         <[i := {| description := description inv; at_ := fr |}]> (invocations s) |},
                    fx)
          end
      end
  end.

Fixpoint run (s : System) (evs : list event) : option (System * list effect) :=
  match evs with
  | [] => Some (s, [])
  | ev :: evs' =>
      match step s ev with
      | None => None
      | Some (s', fx) =>
          match run s' evs' with
          | None => None
          | Some (s'', fx') => Some (s'', fx ++ fx')
          end
      end
  end.

(** ** The load lifecycle (constructor, lines 83-107)

    The constructor calls [initialize()] once and chains a fulfilment and a
    rejection handler on the promise. The page is modelled as far as the two
    handlers touch it; the other listeners the constructor installs
    (mousemove, contextmenu, unload) take no part. *)

Module Lifecycle.

Inductive listener : Type :=
| remove_overlay      (* overlay.remove() *)
| reload_location.    (* location.reload() *)

Record Button : Type := mkButton {
  className : string;
  innerText : string;
  click : list listener
}.

(** The [.message] element inside the overlay, with the children that were
    appended to its parent. *)
Record Message : Type := mkMessage {
  text : string;
  appended : list Button
}.

Record Overlay : Type := mkOverlay {
  opacity : string;
  classList : list string;
  transitionend : list listener;
  message : option Message    (* overlay.querySelector(".message") *)
}.

(** The promise [initialize()] returned. *)
Inductive promise_state : Type := pending | fulfilled | rejected.

Record Page : Type := mkPage {
  overlay : option Overlay;   (* document.getElementById("overlay") *)
  initialized : promise_state
}.

(** How [initialize()] may settle; a rejection reason is an error object,
    of which the handler reads the [message]. *)
Inductive settlement : Type :=
| resolves
| rejects_with (message : string).

Definition loadTime : Time := time 2500.

(** [DOMTokenList.add]. *)
Definition classList_add (token : string) (l : list string) : list string :=
  if decide (token ∈ l) then l else l ++ [token].

(** Lines 84-90. *)
Definition loaded (ov : option Overlay) : option Overlay * list effect :=
  (match ov with
   | Some o => Some {| opacity := "0";
                       classList := classList o;
                       transitionend := transitionend o ++ [remove_overlay];
                       message := message o |}
   | None => None
   end,
   [logger_info "Load completed" [field "duration" (of_time loadTime)]]).

Definition reload_button : Button :=
  {| className := "reload-button"; innerText := "Reload"; click := [reload_location] |}.

(** Lines 92-106. *)
Definition failed (error_message : string) (ov : option Overlay)
  : option Overlay * list effect :=
  (match ov with
   | Some o =>
       Some {| opacity := opacity o;
               classList := classList_add "error" (classList o);
               transitionend := transitionend o;
               message :=
                 match message o with
                 | Some m =>
                     Some {| text := "Failed to load: " +:+ error_message +:+ ".";
                             appended := appended m ++ [reload_button] |}
                 | None => None
                 end |}
   | None => None
   end,
   [logger_error error_message [];
    logger_warn "Load completed with errors" [field "duration" (of_time loadTime)]]).

(** The promise settles once: its handlers run on the first settlement and
    later attempts to settle it do nothing. The fulfilment handler does not
    throw, so the rejection handler chained behind it runs only when
    [initialize()] itself rejects. *)
Definition settle (o : settlement) (p : Page) : Page * list effect :=
  match initialized p with
  | pending =>
      match o with
      | resolves =>
          ({| overlay := (loaded (overlay p)).1; initialized := fulfilled |},
           (loaded (overlay p)).2)
      | rejects_with m =>
          ({| overlay := (failed m (overlay p)).1; initialized := rejected |},
           (failed m (overlay p)).2)
      end
  | _ => (p, [])
  end.

Fixpoint settle_all (os : list settlement) (p : Page) : Page * list effect :=
  match os with
  | [] => (p, [])
  | o :: os' =>
      let '(p1, fx1) := settle o p in
      let '(p2, fx2) := settle_all os' p1 in
      (p2, fx1 ++ fx2)
  end.

(** What can be seen of the page. *)
Definition errored (p : Page) : bool :=
  match overlay p with
  | Some o => bool_decide ("error" ∈ classList o)
  | None => false
  end.

Definition displayed (p : Page) : option string :=
  match overlay p with
  | Some o => text <$> message o
  | None => None
  end.

Definition reload_affordances (p : Page) : list Button :=
  match overlay p with
  | Some o => match message o with Some m => appended m | None => [] end
  | None => []
  end.

(** Each handler ends by logging that the load completed: how often the
    lifecycle left [Loading] for [Succeeded], and for [Failed]. *)
Definition succeeded_transition (e : effect) : bool :=
  match e with
  | logger_info msg _ => bool_decide (msg = "Load completed")
  | _ => false
  end.

Definition failed_transition (e : effect) : bool :=
  match e with
  | logger_warn msg _ => bool_decide (msg = "Load completed with errors")
  | _ => false
  end.

End Lifecycle.

(** ** Notions used to state the properties *)

(** The systems a client can be in: any events from a fresh client. *)
Definition reachable (s : System) : Prop :=
  ∃ fill evs fx, run (boot fill) evs = Some (s, fx).

Fixpoint count {A} (f : A → bool) (l : list A) : nat :=
  match l with
  | [] => 0
  | x :: l' => (if f x then 1 else 0) + count f l'
  end.

(** Invocations whose description is [d] and that have not succeeded: still
    in flight, or failed. *)
Definition listed (d : string) (inv : invocation) : bool :=
  bool_decide (description inv = d) &&
  match at_ inv with Returned (Js.Fulfilled _) => false | _ => true end.

Definition succeeded (inv : invocation) : bool :=
  match at_ inv with Returned (Js.Fulfilled _) => true | _ => false end.

Record consistent (s : System) : Prop := {
  pending_accounted :
    ∀ d, count (λ x, bool_decide (x = d)) (tasks (client s)) = count (listed d) (invocations s);
  finished_accounted :
    finishedTaskCount (client s) = Z.of_nat (count succeeded (invocations s));
  timer_while_pending : start (client s) = None ↔ tasks (client s) = [];
  settled_once : NoDup (promises s).*1
}.

(** The five ways [task_resume] continues an invocation. *)
Inductive resumption (d : string) (hist : list (nat * Js.settled)) (c : Client)
  : frame → Client → list effect → frame → Prop :=
| work_started duration task after since waitFor p :
    awaited after since hist = Js.AllFulfilled waitFor →
    task waitFor = Returns p →
    resumption d hist c (AwaitDeps duration task after since)
      c [logger_info d []] (AwaitTask (time duration) p)
| work_threw duration task after since waitFor e :
    awaited after since hist = Js.AllFulfilled waitFor →
    task waitFor = Throws e →
    resumption d hist c (AwaitDeps duration task after since)
      (task_failed d (Some (time duration)) e c).1
      ([logger_info d []] ++ (task_failed d (Some (time duration)) e c).2)
      (Returned (Js.Rejected e))
| dependency_rejected duration task after since e :
    awaited after since hist = Js.AllRejected e →
    resumption d hist c (AwaitDeps duration task after since)
      (task_failed d None e c).1 (task_failed d None e c).2 (Returned (Js.Rejected e))
| work_resolved started v :
    resumption d hist c (AwaitTask started (Js.Fulfilled v))
      (task_finished d started c).1 (task_finished d started c).2
      (Returned (Js.Fulfilled v))
| work_rejected started e :
    resumption d hist c (AwaitTask started (Js.Rejected e))
      (task_failed d (Some started) e c).1 (task_failed d (Some started) e c).2
      (Returned (Js.Rejected e)).

(** The condition under which the expression of line 130 is a percentage. *)
Definition recompute_defined (c : Client) : Prop :=
  0 ≤ finishedTaskCount c ∧
  (0 ≤ length (tasks c))%nat ∧
  1 ≤ finishedTaskCount c + Z.of_nat (length (tasks c)) ∧
  ∃ p, percentage c = Js.Int p ∧ 0 ≤ p ≤ 100.

Definition writes_width (e : effect) : bool :=
  match e with style_width _ => true | _ => false end.

(** How often a run of effects rewrote the width of the progress element. *)
Definition recomputes (fx : list effect) : nat := count writes_width fx.

(** The steps after which [updateProgress] is called: a call of [task], and
    the resumption with which invocation [i] succeeds. *)
Definition recomputing (s' : System) (ev : event) : bool :=
  match ev with
  | Call _ _ _ _ => true
  | Settle _ _ => false
  | Resume i =>
      match invocations s' !! i with
      | Some inv => succeeded inv
      | None => false
      end
  end.

(** Writes to the progress element happen only if there is one. *)
Definition shown (c : Client) : nat :=
  match progressElement c with Some _ => 1 | None => 0 end.

(** Events that are not a step of an invocation other than [i]. *)
Definition own (i : nat) (ev : event) : Prop :=
  match ev with
  | Call _ _ _ _ => False
  | Settle _ _ => True
  | Resume j => j = i
  end.

(** Where an invocation stands once the work function has been called with
    [waitFor]: suspended on the promise it returned, or failed with what it
    threw. *)
Definition entered (task : list Js.any → work_result) (budget : Z)
    (waitFor : list Js.any) : frame :=
  match task waitFor with
  | Returns p => AwaitTask (time budget) p
  | Throws e => Returned (Js.Rejected e)
  end.

(** The dependencies [after] are all fulfilled, with the values [waitFor]. *)
Definition fulfilled_with (hist : list (nat * Js.settled)) (after : list nat)
    (waitFor : list Js.any) : Prop :=
  Forall2 (λ p v, (p, Js.Fulfilled v) ∈ hist) after waitFor.

(** Where the state of an invocation of [task] on [task] and [after] comes
    from. *)
Definition provenance (task : list Js.any → work_result) (after : list nat)
    (hist : list (nat * Js.settled)) (fr : frame) : Prop :=
  match fr with
  | AwaitDeps _ task' after' _ => task' = task ∧ after' = after
  | AwaitTask _ p => ∃ waitFor, fulfilled_with hist after waitFor ∧ task waitFor = Returns p
  | Returned (Js.Fulfilled v) =>
      ∃ waitFor, fulfilled_with hist after waitFor ∧ task waitFor = Returns (Js.Fulfilled v)
  | Returned (Js.Rejected e) =>
      (∃ waitFor, fulfilled_with hist after waitFor ∧
                  (task waitFor = Returns (Js.Rejected e) ∨ task waitFor = Throws e)) ∨
      (∃ p, p ∈ after ∧ (p, Js.Rejected e) ∈ hist)
  end.

(** An event with another duration budget. *)
Definition with_budget (budget : option Z) (ev : event) : event :=
  match ev with
  | Call d _ task after => Call d budget task after
  | _ => ev
  end.

(** A system without the budgets its invocations carry: the client, the
    settled promises, and of every invocation the description, where it is
    suspended and, once it returned, its outcome. *)
Definition unbudgeted_frame (fr : frame) : frame :=
  match fr with
  | AwaitDeps _ task after since => AwaitDeps 0 task after since
  | AwaitTask _ p => AwaitTask (time 0) p
  | Returned o => Returned o
  end.

Definition unbudgeted_invocation (inv : invocation) : invocation :=
  {| description := description inv; at_ := unbudgeted_frame (at_ inv) |}.

Definition unbudgeted (s : System) : System :=
  {| client := client s;
     promises := promises s;
     invocations := unbudgeted_invocation <$> invocations s |}.

Definition observed (r : option (System * list effect)) : option System :=
  unbudgeted <$> (fst <$> r).

(** ** Concrete runs *)

Definition resolves (v : Js.any) : list Js.any → work_result :=
  λ _, Returns (Js.Fulfilled v).
Definition rejects (e : Js.any) : list Js.any → work_result :=
  λ _, Returns (Js.Rejected e).

Definition fill0 : HTMLElement := {| width := EmptyString; backgroundColor := EmptyString |}.

(** The system and the effects after the events [evs] on a fresh client,
    and after one more step. *)
Definition state_after (fill : option HTMLElement) (evs : list event) : System :=
  match run (boot fill) evs with Some (s, _) => s | None => boot fill end.

Definition effects_after (fill : option HTMLElement) (evs : list event) : list effect :=
  match run (boot fill) evs with Some (_, fx) => fx | None => [] end.

Definition next (s : System) (ev : event) : System :=
  match step s ev with Some (s', _) => s' | None => s end.

Definition effects_of (s : System) (ev : event) : list effect :=
  match step s ev with Some (_, fx) => fx | None => [] end.

(** Scenario B of the specification: "A" and "B" are called and their work
    functions are running; then "B" resolves. *)
Definition scenario_B : list event :=
  [Call "A" (Some 300) (resolves Js.undefined) [];
   Call "B" (Some 150) (resolves Js.undefined) [];
   Resume 0%nat; Resume 1%nat].

Definition B_running : System := state_after (Some fill0) scenario_B.
Definition B_resolved : System := next B_running (Resume 1%nat).

(** Scenario C: the work function of "load-theme" rejects with "net down". *)
Definition scenario_C : list event :=
  [Call "load-theme" (Some 100) (rejects (Js.Error "net down")) []; Resume 0%nat].

Definition C_running : System := state_after (Some fill0) scenario_C.
Definition C_rejected : System := next C_running (Resume 0%nat).

(** A task that adds up its two dependencies, after both were fulfilled,
    the second one first. *)
Definition sum : list Js.any → work_result :=
  λ waitFor,
    match waitFor with
    | [Js.number a; Js.number b] => Returns (Js.Fulfilled (Js.number (a + b)))
    | _ => Throws (Js.Error "bad arguments")
    end.

Definition sum_waiting : System :=
  state_after None
    [Call "sum" None sum [7; 8]%nat;
     Settle 8%nat (Js.Fulfilled (Js.number 2));
     Settle 7%nat (Js.Fulfilled (Js.number 1))].

(** Forty tasks are called and their work functions started; the first
    [n] of them have resolved. *)
Definition forty_running : list event :=
  ((λ k, Call ("task " +:+ pretty k) None (resolves Js.undefined) []) <$> seq 0 40) ++
  (Resume <$> seq 0 40).

Definition resolved_of_forty (n : nat) : System :=
  state_after (Some fill0) (forty_running ++ (Resume <$> seq 0 n)).

(** Scenario D: a page with overlay and message element, on which
    [initialize()] rejects with "net down". *)
Definition loading_page : Lifecycle.Page :=
  {| Lifecycle.overlay :=
       Some {| Lifecycle.opacity := "1";
               Lifecycle.classList := [];
               Lifecycle.transitionend := [];
               Lifecycle.message :=
                 Some {| Lifecycle.text := "Loading"; Lifecycle.appended := [] |} |};
     Lifecycle.initialized := Lifecycle.pending |}.

(** ** Further notions *)

(** An invocation whose description is still in the pending list: it is in
    flight or has failed. *)
Definition unfinished (inv : invocation) : bool := negb (succeeded inv).

(** The line logged when the pending list runs empty (lines 148-149). *)
Definition burst_line (t n : field_value) : effect :=
  logger_info "Finished all queued tasks" [field "duration" t; field "count" n].

(** An invocation that carries the budget [b]: as the argument of its
    call while it waits for its dependencies, in its timer afterwards. *)
Definition budgeted (b : Z) (fr : frame) : Prop :=
  match fr with
  | AwaitDeps b' _ _ _ => b' = b
  | AwaitTask started _ => started = time b
  | Returned _ => True
  end.

(** The system and the effects after the events [evs] from [s]. *)
Definition following (s : System) (evs : list event) : System :=
  match run s evs with Some (s', _) => s' | None => s end.

Definition effects_following (s : System) (evs : list event) : list effect :=
  match run s evs with Some (_, fx) => fx | None => [] end.

(** Invocation [i] is waiting for its dependencies and the combined wait
    has rejected. *)
Definition dependencies_rejected (s : System) (i : nat) : Prop :=
  ∃ d b task after since e,
    invocations s !! i = Some {| description := d; at_ := AwaitDeps b task after since |} ∧
    awaited after since (promises s) = Js.AllRejected e.

(** The next resumption of invocation [i] completes it without calling its
    work function: the invocation waits at line 140 for the promise that the
    work function returned, or it waits at line 137 and the combined wait has
    rejected. *)
Definition completing (s : System) (i : nat) : Prop :=
  (∃ d started p,
     invocations s !! i = Some {| description := d; at_ := AwaitTask started p |}) ∨
  dependencies_rejected s i.

(** The list without its first entry equal to [d]. *)
Fixpoint remove_first (d : string) (l : list string) : list string :=
  match l with
  | [] => []
  | x :: l' => if decide (x = d) then l' else x :: remove_first d l'
  end.

(** What a resumption does to the client: nothing (the work function was
    started), the failure path, or the success path. *)
Inductive change : Type :=
| unchanged
| fails (d : string) (started : option Time) (e : Js.any)
| finishes (d : string) (started : Time).

Definition act (k : change) (c : Client) : Client :=
  match k with
  | unchanged => c
  | fails d started e => (task_failed d started e c).1
  | finishes d started => (task_finished d started c).1
  end.

(** * Properties *)

(** ** Arrays: [indexOf] and [splice] *)

Lemma indexOf_range x l : -1 ≤ Js.indexOf x l < Z.of_nat (length l).
Proof.
  induction l as [|y l IH]; simpl; [lia|].
  repeat case_decide; lia.
Qed.

Lemma indexOf_absent x l : Js.indexOf x l = -1 ↔ x ∉ l.
Proof.
  induction l as [|y l IH]; simpl.
  - split; [intros _; apply not_elem_of_nil | done].
  - pose proof (indexOf_range x l). rewrite not_elem_of_cons.
    case_decide as Hy; [subst; split; [lia | tauto]|].
    case_decide as Hi.
    + split; [intros _; split; [congruence | tauto] | done].
    + split; [lia | tauto].
Qed.

(** When [x] occurs, [indexOf] is the length of the longest prefix without it. *)
Lemma indexOf_present x l :
  x ∈ l →
  ∃ l1 l2, l = l1 ++ x :: l2 ∧ (x ∉ l1) ∧ Js.indexOf x l = Z.of_nat (length l1).
Proof.
  induction l as [|y l IH]; [by intros ?%elem_of_nil|].
  intros Hin. simpl. case_decide as Hy.
  - subst. exists [], l. split_and!; [done | apply not_elem_of_nil | done].
  - apply elem_of_cons in Hin as [->|Hin]; [done|].
    destruct (IH Hin) as (l1 & l2 & -> & Hl1 & Hi).
    exists (y :: l1), l2. rewrite Hi. split_and!.
    + done.
    + rewrite not_elem_of_cons. split; [congruence | done].
    + case_decide; simpl; lia.
Qed.

Lemma splice1_middle {A} (l1 l2 : list A) x :
  Js.splice1 (Z.of_nat (length l1)) (l1 ++ x :: l2) = l1 ++ l2.
Proof.
  unfold Js.splice1. case_decide; [lia|].
  rewrite length_app. simpl.
  replace (Z.to_nat _) with (length l1) by lia.
  apply delete_middle.
Qed.

(** ** Doubles

    Rounding to the nearest double keeps the order of the exact results,
    does not depend on how the rational is written, and leaves 0, 1 and 100
    as they are. *)

Section double.
Local Open Scope Q_scope.

Lemma pow2_pos e : 0 < 2 ^ e.
Proof. by apply Qpower_0_lt. Qed.

Lemma pow2_add a b : 2 ^ (a + b) == 2 ^ a * 2 ^ b.
Proof. by apply Qpower_plus. Qed.

Lemma pow2_succ a : 2 ^ (a + 1) == 2 * 2 ^ a.
Proof. rewrite pow2_add. change (2 ^ 1) with 2. ring. Qed.

Lemma pow2_le a b : (a ≤ b)%Z → 2 ^ a <= 2 ^ b.
Proof. intros. by apply Qpower_le_compat_l. Qed.

Lemma pow2_lt_inv a b : 2 ^ a < 2 ^ b → (a < b)%Z.
Proof. intros. by apply (Qpower_lt_compat_l_inv 2). Qed.

Lemma pow2_inject n : (0 ≤ n)%Z → inject_Z (2 ^ n) == 2 ^ n.
Proof. intros. by rewrite Zpower_Qpower. Qed.

Lemma log2_quotient x :
  0 < x →
  let k := (Z.log2 (Qnum x) - Z.log2 (Zpos (Qden x)))%Z in
  2 ^ (k - 1) < x ∧ x < 2 ^ (k + 1).
Proof.
  destruct x as [n d]. intros Hx k. subst k. cbn [Qnum Qden].
  assert (0 < n)%Z as Hn by (unfold Qlt in Hx; simpl in Hx; lia).
  pose proof (Z.log2_spec n Hn) as [Hn1 Hn2].
  pose proof (Z.log2_spec (Zpos d) eq_refl) as [Hd1 Hd2].
  pose proof (Z.log2_nonneg n) as Hln. pose proof (Z.log2_nonneg (Zpos d)) as Hld.
  set (ln := Z.log2 n) in *. set (ld := Z.log2 (Zpos d)) in *.
  rewrite Zle_Qle in Hn1, Hd1. rewrite pow2_inject in Hn1, Hd1 by done.
  rewrite Zlt_Qlt in Hn2, Hd2. rewrite pow2_inject in Hn2, Hd2 by lia.
  unfold Z.succ in Hn2, Hd2. rewrite pow2_succ in Hn2, Hd2.
  rewrite (Qmake_Qdiv n d).
  assert (0 < inject_Z (Zpos d)) as HD by (unfold Qlt; simpl; lia).
  pose proof (pow2_pos ln) as HA. pose proof (pow2_pos ld) as HB.
  assert (2 ^ ln == 2 ^ (ln - ld - 1) * (2 * 2 ^ ld)) as E1.
  { rewrite <-pow2_succ, <-pow2_add. by replace (ln - ld - 1 + (ld + 1))%Z with ln by lia. }
  assert (2 * 2 ^ ln == 2 ^ (ln - ld + 1) * 2 ^ ld) as E2.
  { rewrite <-pow2_succ, <-pow2_add. by replace (ln - ld + 1 + ld)%Z with (ln + 1)%Z by lia. }
  pose proof (pow2_pos (ln - ld - 1)) as Hr1. pose proof (pow2_pos (ln - ld + 1)) as Hr2.
  set (r1 := 2 ^ (ln - ld - 1)) in *. set (r2 := 2 ^ (ln - ld + 1)) in *.
  set (A := 2 ^ ln) in *. set (B := 2 ^ ld) in *.
  set (N := inject_Z n) in *. set (D := inject_Z (Zpos d)) in *.
  split.
  - apply Qlt_shift_div_l; [done|].
    assert (r1 * D < r1 * (2 * B)) by (apply Qmult_lt_l; done).
    lra.
  - apply Qlt_shift_div_r; [done|].
    assert (r2 * B <= r2 * D) by (apply Qmult_le_l; done).
    lra.
Qed.

Lemma ilog2_spec x : 0 < x → 2 ^ Js.ilog2 x <= x ∧ x < 2 ^ (Js.ilog2 x + 1).
Proof.
  intros Hx. destruct (log2_quotient x Hx) as [H1 H2]. unfold Js.ilog2.
  destruct (Qle_bool _ x) eqn:Hle.
  - by apply Qle_bool_iff in Hle.
  - split; [by apply Qlt_le_weak|].
    apply Qnot_le_lt. intros H%Qle_bool_iff.
    replace (_ - 1 + 1)%Z with (Z.log2 (Qnum x) - Z.log2 (Zpos (Qden x)))%Z in H by lia.
    congruence.
Qed.

Lemma ilog2_mono x y : 0 < x → x <= y → (Js.ilog2 x ≤ Js.ilog2 y)%Z.
Proof.
  intros Hx Hxy.
  destruct (ilog2_spec x Hx) as [H1 _].
  destruct (ilog2_spec y) as [_ H2]; [lra|].
  cut (Js.ilog2 x < Js.ilog2 y + 1)%Z; [lia|].
  apply pow2_lt_inv. lra.
Qed.

Lemma nearest_even_Z n : Js.nearest_even (inject_Z n) = n.
Proof.
  unfold Js.nearest_even. rewrite Qfloor_Z.
  destruct (Qcompare_spec (inject_Z n - inject_Z n) (1 # 2)) as [H|H|H]; [lra|done|lra].
Qed.

Lemma nearest_even_mono x y : x <= y → (Js.nearest_even x ≤ Js.nearest_even y)%Z.
Proof.
  intros Hxy. pose proof (Qfloor_resp_le _ _ Hxy) as Hfl. unfold Js.nearest_even.
  destruct (decide (Qfloor x = Qfloor y)) as [E|Hne].
  - rewrite <-E.
    destruct (Qcompare_spec (x - inject_Z (Qfloor x)) (1 # 2)) as [H|H|H],
             (Qcompare_spec (y - inject_Z (Qfloor x)) (1 # 2)) as [H'|H'|H'];
      try lia; try lra; destruct (Z.even (Qfloor x)); lia.
  - cut (Js.nearest_even x ≤ Qfloor x + 1 ∧ Qfloor y ≤ Js.nearest_even y)%Z.
    { unfold Js.nearest_even. lia. }
    unfold Js.nearest_even.
    destruct (_ ?= _), (_ ?= _); repeat destruct (Z.even _); lia.
Qed.

Lemma nearest_even_ext x y : x == y → Js.nearest_even x = Js.nearest_even y.
Proof. intros E. apply Z.le_antisymm; apply nearest_even_mono; lra. Qed.

Lemma nearest64_below x :
  0 < x → Js.nearest64 x <= 2 ^ (Js.exponent x + 53).
Proof.
  intros Hx. unfold Js.nearest64.
  destruct (ilog2_spec x Hx) as [_ H2].
  pose proof (pow2_pos (Js.exponent x)) as He.
  assert (x <= 2 ^ (Js.exponent x + 53)) as Hle.
  { apply Qlt_le_weak, (Qlt_le_trans _ _ _ H2), pow2_le. unfold Js.exponent. lia. }
  rewrite pow2_add.
  rewrite (Qmult_comm (2 ^ Js.exponent x)).
  apply Qmult_le_compat_r; [|lra].
  rewrite <-(pow2_inject 53), <-Zle_Qle by lia.
  rewrite <-(nearest_even_Z (2 ^ 53)). apply nearest_even_mono.
  apply Qle_shift_div_r; [done|]. rewrite pow2_inject by lia.
  rewrite pow2_add, Qmult_comm in Hle. done.
Qed.

Lemma nearest64_above x :
  0 < x → (-1074 < Js.exponent x)%Z → 2 ^ (Js.exponent x + 52) <= Js.nearest64 x.
Proof.
  intros Hx Hex. unfold Js.nearest64.
  destruct (ilog2_spec x Hx) as [H1 _].
  pose proof (pow2_pos (Js.exponent x)) as He.
  assert (2 ^ (Js.exponent x + 52) <= x) as Hle.
  { replace (Js.exponent x + 52)%Z with (Js.ilog2 x) by (unfold Js.exponent in *; lia). done. }
  rewrite pow2_add.
  rewrite (Qmult_comm (2 ^ Js.exponent x)).
  apply Qmult_le_compat_r; [|lra].
  rewrite <-(pow2_inject 52), <-Zle_Qle by lia.
  rewrite <-(nearest_even_Z (2 ^ 52)) at 1. apply nearest_even_mono.
  apply Qle_shift_div_l; [done|]. rewrite pow2_inject by lia.
  rewrite pow2_add, Qmult_comm in Hle. done.
Qed.

Lemma nearest64_mono x y : 0 < x → x <= y → Js.nearest64 x <= Js.nearest64 y.
Proof.
  intros Hx Hxy. assert (0 < y) as Hy by lra.
  pose proof (ilog2_mono x y Hx Hxy) as Hl.
  destruct (decide (Js.exponent x = Js.exponent y)) as [E|Hne].
  - unfold Js.nearest64. rewrite <-E.
    pose proof (pow2_pos (Js.exponent x)) as He.
    apply Qmult_le_compat_r; [|lra].
    rewrite <-Zle_Qle. apply nearest_even_mono.
    apply Qmult_le_compat_r; [done|]. apply Qlt_le_weak, Qinv_lt_0_compat, He.
  - assert (Js.exponent x < Js.exponent y)%Z as Hlt by (unfold Js.exponent in *; lia).
    eapply Qle_trans; [by apply nearest64_below|].
    eapply Qle_trans; [|apply nearest64_above; [done|unfold Js.exponent in *; lia]].
    apply pow2_le. lia.
Qed.

Lemma nearest64_nonneg x : 0 <= x → 0 <= Js.nearest64 x.
Proof.
  intros Hx. unfold Js.nearest64.
  pose proof (pow2_pos (Js.exponent x)) as He.
  apply Qmult_le_0_compat; [|lra].
  change 0 with (inject_Z 0). rewrite <-Zle_Qle.
  rewrite <-(nearest_even_Z 0) at 1. apply nearest_even_mono.
  apply Qle_shift_div_l; [done|]. change (inject_Z 0) with 0. lra.
Qed.

Lemma binary64_mono x y : 0 <= x → x <= y → Js.binary64 x <= Js.binary64 y.
Proof.
  intros Hx Hxy. unfold Js.binary64.
  destruct (Qle_bool x 0) eqn:Hx0.
  - apply Qle_bool_iff in Hx0.
    rewrite (proj2 (Qle_bool_iff 0 x) Hx).
    destruct (Qle_bool y 0) eqn:Hy0.
    + rewrite (proj2 (Qle_bool_iff 0 y)) by lra. lra.
    + apply nearest64_nonneg. lra.
  - assert (0 < x) as Hpos.
    { apply Qnot_le_lt. intros H%Qle_bool_iff. congruence. }
    destruct (Qle_bool y 0) eqn:Hy0.
    + apply Qle_bool_iff in Hy0. lra.
    + by apply nearest64_mono.
Qed.

Lemma binary64_ext x y : 0 <= x → x == y → Js.binary64 x == Js.binary64 y.
Proof. intros Hx E. apply Qle_antisym; apply binary64_mono; lra. Qed.

Lemma binary64_0 : Js.binary64 0 == 0.
Proof. vm_compute. reflexivity. Qed.

Lemma binary64_1 : Js.binary64 1 == 1.
Proof. vm_compute. reflexivity. Qed.

Lemma binary64_100 : Js.binary64 100 == 100.
Proof. vm_compute. reflexivity. Qed.

Lemma Math_round_mono x y : x <= y → (Js.Math_round x ≤ Js.Math_round y)%Z.
Proof. intros. apply Qfloor_resp_le. lra. Qed.

Lemma Math_round_Z n : Js.Math_round (inject_Z n) = n.
Proof.
  unfold Js.Math_round. apply Z.le_antisymm.
  - cut (Qfloor (inject_Z n + (1 # 2)) < n + 1)%Z; [lia|].
    rewrite Zlt_Qlt. eapply Qle_lt_trans; [apply Qfloor_le|].
    rewrite inject_Z_plus. change (inject_Z 1) with 1. lra.
  - rewrite <-(Qfloor_Z n) at 1. apply Qfloor_resp_le. lra.
Qed.


Lemma binary64_nonneg x : 0 <= x → 0 <= Js.binary64 x.
Proof. intros Hx. rewrite <-binary64_0. by apply binary64_mono. Qed.

(** [Math.round((x / y) * 100)] grows with the quotient. *)
Lemma percent_mono x y x' y' :
  0 <= x / y → x / y <= x' / y' →
  (Js.Math_round (Js.times (Js.divide x y) 100) ≤
   Js.Math_round (Js.times (Js.divide x' y') 100))%Z.
Proof.
  intros H0 Hle. unfold Js.times, Js.divide.
  pose proof (binary64_nonneg _ H0) as Hq.
  pose proof (binary64_mono _ _ H0 Hle) as Hm.
  apply Math_round_mono, binary64_mono; lra.
Qed.

Lemma percent_of_0 : Js.Math_round (Js.times (Js.divide 0 1) 100) = 0%Z.
Proof. vm_compute. reflexivity. Qed.

Lemma percent_of_half : Js.Math_round (Js.times (Js.divide 1 2) 100) = 50%Z.
Proof. vm_compute. reflexivity. Qed.

Lemma percent_of_1 : Js.Math_round (Js.times (Js.divide 1 1) 100) = 100%Z.
Proof. vm_compute. reflexivity. Qed.

Lemma quotient_le a a' b b' :
  (0 < b)%Z → (0 < b')%Z → (a * b' ≤ a' * b)%Z →
  inject_Z a / inject_Z b <= inject_Z a' / inject_Z b'.
Proof.
  intros Hb Hb' Hle. destruct b as [|p|p], b' as [|p'|p']; try lia.
  rewrite <-!Qmake_Qdiv. unfold Qle. simpl. lia.
Qed.

End double.

(** For every pair of counts up to 100, and for 29 of 200, [binary64] gives
    the product that the machine computes. *)
Lemma binary64_as_the_machine :
  forallb (λ b, forallb (λ a, Js.as_the_machine a b) (seqZ 0 (b + 1))) (seqZ 1 100) = true ∧
  Js.as_the_machine 29 200 = true.
Proof. split; vm_compute; reflexivity. Qed.

(** ** The percentage *)

Example round_percent_23_of_40 : Js.round_percent 23 40 = Js.Int 57.
Proof. vm_compute. reflexivity. Qed.

Example round_percent_29_of_200 : Js.round_percent 29 200 = Js.Int 14.
Proof. vm_compute. reflexivity. Qed.

Lemma round_percent_bounds a b :
  0 ≤ a ≤ b → 1 ≤ b → ∃ p, Js.round_percent a b = Js.Int p ∧ 0 ≤ p ≤ 100.
Proof.
  intros Ha Hb. unfold Js.round_percent. case_decide; [lia|].
  eexists. split; [done|]. split.
  - rewrite <-percent_of_0. apply percent_mono; [done|].
    apply (quotient_le 0 a 1 b); lia.
  - rewrite <-percent_of_1. apply percent_mono.
    + apply (quotient_le 0 a 1 b); lia.
    + apply (quotient_le a 1 b 1); lia.
Qed.

Lemma round_percent_half a b :
  1 ≤ b → a ≤ b ≤ 2 * a → ∃ p, Js.round_percent a b = Js.Int p ∧ 50 ≤ p ≤ 100.
Proof.
  intros Hb Ha. unfold Js.round_percent. case_decide; [lia|].
  eexists. split; [done|]. split.
  - rewrite <-percent_of_half. apply percent_mono; [done|].
    apply (quotient_le 1 a 2 b); lia.
  - rewrite <-percent_of_1. apply percent_mono.
    + apply (quotient_le 0 a 1 b); lia.
    + apply (quotient_le a 1 b 1); lia.
Qed.

(** ** Settled promises and [Promise.all] *)

Lemma state_of_elem p o hist : Js.state_of p hist = Some o → (p, o) ∈ hist.
Proof.
  induction hist as [|[q o'] hist IH]; simpl; [done|].
  case_decide; intros; simplify_eq; [left | right; auto].
Qed.

Lemma state_of_app p hist1 hist2 :
  Js.state_of p (hist1 ++ hist2) =
  match Js.state_of p hist1 with Some o => Some o | None => Js.state_of p hist2 end.
Proof.
  induction hist1 as [|[q o] hist1 IH]; simpl; [done|]. by case_decide.
Qed.

Lemma state_of_None p hist : Js.state_of p hist = None ↔ p ∉ hist.*1.
Proof.
  induction hist as [|[q o] hist IH]; simpl.
  - split; [intros _; apply not_elem_of_nil | done].
  - rewrite not_elem_of_cons. case_decide as Hq.
    + subst. split; [done | tauto].
    + rewrite IH. split; [intros ?; split; [congruence | done] | tauto].
Qed.

Lemma state_of_unique p o hist :
  NoDup hist.*1 → (p, o) ∈ hist → Js.state_of p hist = Some o.
Proof.
  induction hist as [|[q o'] hist IH]; simpl; [by intros _ ?%elem_of_nil|].
  intros [Hq Hnd]%NoDup_cons [Heq|Hin]%elem_of_cons.
  - simplify_eq. by case_decide.
  - case_decide; [|auto]. subst. exfalso. apply Hq.
    apply (list_elem_of_fmap_2 fst) in Hin. done.
Qed.

Lemma rejected_input_Some inputs before e :
  Js.rejected_input inputs before = Some e →
  ∃ p, p ∈ inputs ∧ Js.state_of p before = Some (Js.Rejected e).
Proof.
  induction inputs as [|p inputs IH]; simpl; [done|].
  destruct (Js.state_of p before) as [[v|e']|] eqn:Hp; intros H.
  - destruct (IH H) as (q & ? & ?). exists q. split; [by right | done].
  - simplify_eq. exists p. split; [by left | done].
  - destruct (IH H) as (q & ? & ?). exists q. split; [by right | done].
Qed.

Lemma rejected_input_None inputs before :
  Js.rejected_input inputs before = None ↔
  ∀ p e, p ∈ inputs → Js.state_of p before ≠ Some (Js.Rejected e).
Proof.
  induction inputs as [|p inputs IH]; simpl.
  - split; [intros _ p e ?%elem_of_nil; done | done].
  - destruct (Js.state_of p before) as [[v|e']|] eqn:Hp.
    + rewrite IH. split.
      * intros H q e [->|Hq]%elem_of_cons; [congruence | by apply H].
      * intros H q e Hq. apply H. by right.
    + split; [done|]. intros H. exfalso. apply (H p e'); [by left | done].
    + rewrite IH. split.
      * intros H q e [->|Hq]%elem_of_cons; [congruence | by apply H].
      * intros H q e Hq. apply H. by right.
Qed.

Lemma rejection_since_Some inputs later e :
  Js.rejection_since inputs later = Some e →
  ∃ p, p ∈ inputs ∧ (p, Js.Rejected e) ∈ later.
Proof.
  induction later as [|[p [v|e']] later IH]; simpl; [done| |].
  - intros H. destruct (IH H) as (q & ? & ?). exists q. split; [done | by right].
  - case_decide as Hp; intros H.
    + simplify_eq. exists p. split; [done | by left].
    + destruct (IH H) as (q & ? & ?). exists q. split; [done | by right].
Qed.

Lemma rejection_since_None inputs later :
  Js.rejection_since inputs later = None ↔
  ∀ p e, p ∈ inputs → (p, Js.Rejected e) ∉ later.
Proof.
  induction later as [|[p [v|e']] later IH]; simpl.
  - split; [intros _ p e _; apply not_elem_of_nil | done].
  - rewrite IH. split.
    + intros H q e Hq [?|?]%elem_of_cons; [done | by eapply H].
    + intros H q e Hq ?. apply (H q e Hq). by right.
  - case_decide as Hp.
    + split; [done|]. intros H. exfalso. apply (H p e' Hp). by left.
    + rewrite IH. split.
      * intros H q e Hq [?|?]%elem_of_cons; [by simplify_eq | by eapply H].
      * intros H q e Hq ?. apply (H q e Hq). by right.
Qed.

Lemma values_of_Some inputs hist values :
  Js.values_of inputs hist = Some values ↔
  Forall2 (λ p v, Js.state_of p hist = Some (Js.Fulfilled v)) inputs values.
Proof.
  revert values. induction inputs as [|p inputs IH]; intros values; simpl.
  - split; [intros; simplify_eq; constructor | by intros ->%Forall2_nil_inv_l].
  - destruct (Js.state_of p hist) as [[v|e]|] eqn:Hp.
    + split.
      * intros (vs & Hvs & ->)%fmap_Some. constructor; [done | by apply IH].
      * intros (v' & vs & ? & Hvs & ->)%Forall2_cons_inv_l. simplify_eq.
        apply IH in Hvs. by rewrite Hvs.
    + split; [done|]. intros (v' & vs & ? & _)%Forall2_cons_inv_l. congruence.
    + split; [done|]. intros (v' & vs & ? & _)%Forall2_cons_inv_l. congruence.
Qed.

Lemma values_of_None inputs hist p :
  p ∈ inputs → Js.state_of p hist = None → Js.values_of inputs hist = None.
Proof.
  intros Hp Hnone. destruct (Js.values_of inputs hist) as [vs|] eqn:Hvs; [|done].
  apply values_of_Some in Hvs.
  apply list_elem_of_lookup in Hp as [i Hi].
  destruct (Forall2_lookup_l _ _ _ _ _ Hvs Hi) as (v & _ & ?). congruence.
Qed.

(** What the first [await] of [task] can observe. *)
Lemma awaited_rejected after since hist e :
  awaited after since hist = Js.AllRejected e →
  ∃ p, p ∈ after ∧ (p, Js.Rejected e) ∈ hist.
Proof.
  assert (∀ x, x ∈ take since hist ++ drop since hist → x ∈ hist) as Hsplit.
  { intros x. by rewrite take_drop. }
  unfold awaited, Js.Promise_all. case_decide; [|done].
  destruct (Js.rejected_input _ _) as [e1|] eqn:H1.
  { intros; simplify_eq. apply rejected_input_Some in H1 as (p & ? & ?%state_of_elem).
    exists p. split; [done|]. apply Hsplit, elem_of_app. by left. }
  destruct (Js.rejection_since _ _) as [e2|] eqn:H2.
  { intros; simplify_eq. apply rejection_since_Some in H2 as (p & ? & ?).
    exists p. split; [done|]. apply Hsplit, elem_of_app. by right. }
  by destruct (Js.values_of _ _).
Qed.

Lemma awaited_fulfilled after since hist values :
  awaited after since hist = Js.AllFulfilled values →
  Forall2 (λ p v, Js.state_of p hist = Some (Js.Fulfilled v)) after values.
Proof.
  unfold awaited, Js.Promise_all. case_decide as Hlen.
  - destruct (Js.rejected_input _ _); [done|].
    destruct (Js.rejection_since _ _); [done|].
    rewrite take_drop.
    destruct (Js.values_of _ _) eqn:Hv; [|done].
    intros; simplify_eq. by apply values_of_Some.
  - intros; simplify_eq. destruct after; [constructor | simpl in Hlen; lia].
Qed.

Lemma awaited_when_all_fulfilled after since hist values :
  NoDup hist.*1 →
  Forall2 (λ p v, Js.state_of p hist = Some (Js.Fulfilled v)) after values →
  awaited after since hist = Js.AllFulfilled values.
Proof.
  intros Hnd Hall. unfold awaited, Js.Promise_all. case_decide as Hlen.
  - assert (∀ p e, p ∈ after → Js.state_of p hist ≠ Some (Js.Rejected e)) as Hnone.
    { intros p e [i Hi]%list_elem_of_lookup.
      destruct (Forall2_lookup_l _ _ _ _ _ Hall Hi) as (v & _ & ?). congruence. }
    destruct (Js.rejected_input _ _) as [e1|] eqn:H1.
    { apply rejected_input_Some in H1 as (p & Hp & Hst). exfalso.
      apply (Hnone p e1 Hp). rewrite <-(take_drop since hist), state_of_app.
      by rewrite Hst. }
    destruct (Js.rejection_since _ _) as [e2|] eqn:H2.
    { apply rejection_since_Some in H2 as (p & Hp & Hin). exfalso.
      apply (Hnone p e2 Hp). apply state_of_unique; [done|].
      rewrite <-(take_drop since hist). apply elem_of_app. by right. }
    rewrite take_drop. apply values_of_Some in Hall. by rewrite Hall.
  - destruct after; [|simpl in Hlen; lia]. by apply Forall2_nil_inv_l in Hall as ->.
Qed.

Lemma awaited_when_one_rejected after since hist p e :
  p ∈ after → Js.state_of p hist = Some (Js.Rejected e) →
  ∃ e', awaited after since hist = Js.AllRejected e'.
Proof.
  intros Hp Hst. unfold awaited, Js.Promise_all.
  case_decide as Hlen; [|destruct after; [by apply elem_of_nil in Hp | simpl in Hlen; lia]].
  destruct (Js.rejected_input _ _) as [e1|] eqn:H1; [by eexists|].
  destruct (Js.rejection_since _ _) as [e2|] eqn:H2; [by eexists|].
  exfalso. rewrite <-(take_drop since hist), state_of_app in Hst.
  destruct (Js.state_of p (take since hist)) eqn:Hb.
  - simplify_eq. by eapply rejected_input_None in H1.
  - apply state_of_elem in Hst. by eapply rejection_since_None in H2.
Qed.

Lemma awaited_while_one_pending after since hist p :
  NoDup hist.*1 →
  p ∈ after → Js.state_of p hist = None →
  (∀ q e, q ∈ after → Js.state_of q hist ≠ Some (Js.Rejected e)) →
  awaited after since hist = Js.AllPending.
Proof.
  intros Hnd Hp Hst Hnone. unfold awaited, Js.Promise_all.
  case_decide as Hlen; [|destruct after; [by apply elem_of_nil in Hp | simpl in Hlen; lia]].
  destruct (Js.rejected_input _ _) as [e1|] eqn:H1.
  { apply rejected_input_Some in H1 as (q & Hq & Hq'). exfalso.
    apply (Hnone q e1 Hq). rewrite <-(take_drop since hist), state_of_app.
    by rewrite Hq'. }
  destruct (Js.rejection_since _ _) as [e2|] eqn:H2.
  { apply rejection_since_Some in H2 as (q & Hq & Hin). exfalso.
    apply (Hnone q e2 Hq). apply state_of_unique; [done|].
    rewrite <-(take_drop since hist). apply elem_of_app. by right. }
  rewrite take_drop. by rewrite (values_of_None _ _ p).
Qed.

Lemma task_resume_resumption d fr hist c c' fx fr' :
  task_resume d fr hist c = Some (c', fx, fr') ↔ resumption d hist c fr c' fx fr'.
Proof.
  split.
  - unfold task_resume. intros H.
    destruct fr as [duration task after since|started [v|e]|o].
    + destruct (awaited after since hist) as [|waitFor|e] eqn:Haw; [done| |].
      * destruct (task waitFor) as [e|p] eqn:Hw.
        -- destruct (task_failed _ _ _ _) as [c1 fx1] eqn:Hf. simplify_eq.
           replace c' with (task_failed d (Some (time duration)) e c).1 by by rewrite Hf.
           replace fx1 with (task_failed d (Some (time duration)) e c).2 by by rewrite Hf.
           by eapply work_threw.
        -- simplify_eq. by eapply work_started.
      * destruct (task_failed _ _ _ _) as [c1 fx1] eqn:Hf. simplify_eq.
        replace c' with (task_failed d None e c).1 by by rewrite Hf.
        replace fx with (task_failed d None e c).2 by by rewrite Hf.
        by apply dependency_rejected.
    + destruct (task_finished _ _ _) as [c1 fx1] eqn:Hf. simplify_eq.
      replace c' with (task_finished d started c).1 by by rewrite Hf.
      replace fx with (task_finished d started c).2 by by rewrite Hf.
      apply work_resolved.
    + destruct (task_failed _ _ _ _) as [c1 fx1] eqn:Hf. simplify_eq.
      replace c' with (task_failed d (Some started) e c).1 by by rewrite Hf.
      replace fx with (task_failed d (Some started) e c).2 by by rewrite Hf.
      apply work_rejected.
    + done.
  - intros H. destruct H as [? ? ? ? ? ? Haw Hw|? ? ? ? ? ? Haw Hw|? ? ? ? ? Haw| |];
      unfold task_resume; rewrite ?Haw, ?Hw; by repeat case_match; simplify_eq.
Qed.

(** Every step is a call, a settlement or a resumption. *)
Lemma step_Call s d duration task after :
  step s (Call d duration task after) =
  Some ({| client := (task_enter d (client s)).1;
           promises := promises s;
           invocations := invocations s ++
             [{| description := d;
                 at_ := AwaitDeps (default 100 duration) task after (length (promises s)) |}] |},
        (task_enter d (client s)).2).
Proof. unfold step. by destruct (task_enter d (client s)). Qed.

Lemma step_Settle s p o s' fx :
  step s (Settle p o) = Some (s', fx) ↔
  Js.state_of p (promises s) = None ∧ fx = [] ∧
  s' = {| client := client s; promises := promises s ++ [(p, o)];
          invocations := invocations s |}.
Proof.
  unfold step. destruct (Js.state_of p (promises s)); split;
    intros; destruct_and?; simplify_eq; done.
Qed.

Lemma step_Resume s i s' fx :
  step s (Resume i) = Some (s', fx) ↔
  ∃ d fr fr',
    invocations s !! i = Some {| description := d; at_ := fr |} ∧
    resumption d (promises s) (client s) fr (client s') fx fr' ∧
    promises s' = promises s ∧
    invocations s' = <[i := {| description := d; at_ := fr' |}]> (invocations s).
Proof.
  unfold step. split.
  - destruct (invocations s !! i) as [[d fr]|]; [|done]. simpl.
    destruct (task_resume _ _ _ _) as [[[c fx1] fr']|] eqn:Hres; [|done].
    intros; simplify_eq. exists d, fr, fr'. simpl.
    by apply task_resume_resumption in Hres.
  - intros (d & fr & fr' & -> & Hres & Hp & Hi). simpl.
    apply task_resume_resumption in Hres. rewrite Hres.
    destruct s'; simpl in *. by subst.
Qed.

(** ** What each part of [task] does to the client's fields *)

Lemma updateProgress_fields c :
  start (updateProgress c).1 = start c ∧
  tasks (updateProgress c).1 = tasks c ∧
  finishedTaskCount (updateProgress c).1 = finishedTaskCount c ∧
  (progressElement (updateProgress c).1 = None ↔ progressElement c = None).
Proof.
  unfold updateProgress. destruct (progressElement c) eqn:E; simpl; rewrite ?E;
    split_and!; done.
Qed.

Lemma task_enter_fields d c :
  start (task_enter d c).1 = Some (default (time 1000) (start c)) ∧
  tasks (task_enter d c).1 = tasks c ++ [d] ∧
  finishedTaskCount (task_enter d c).1 = finishedTaskCount c.
Proof.
  unfold task_enter.
  destruct (updateProgress_fields (register d c)) as (-> & -> & -> & _).
  simpl. by destruct (start c).
Qed.

Lemma task_failed_fields d started e c :
  start (task_failed d started e c).1 = start c ∧
  tasks (task_failed d started e c).1 = tasks c ∧
  finishedTaskCount (task_failed d started e c).1 = finishedTaskCount c ∧
  width <$> progressElement (task_failed d started e c).1 = width <$> progressElement c.
Proof.
  unfold task_failed. destruct (progressElement c) eqn:E; simpl; rewrite ?E; done.
Qed.

Lemma task_finished_fields d started c :
  tasks (task_finished d started c).1 = tasks (complete d c) ∧
  finishedTaskCount (task_finished d started c).1 = finishedTaskCount c + 1 ∧
  start (task_finished d started c).1 =
    match tasks (complete d c) with [] => None | _ => start c end.
Proof.
  unfold task_finished.
  destruct (updateProgress_fields (complete d c)) as (Hs & Ht & Hf & _).
  assert (finishedTaskCount (complete d c) = finishedTaskCount c + 1) as Hf' by done.
  assert (start (complete d c) = start c) as Hs' by done.
  destruct (updateProgress (complete d c)) as [c1 fx2].
  generalize dependent (complete d c). intros c0 Hs Ht Hf Hf' Hs'. simpl in Hs, Ht, Hf.
  destruct (decide (length (tasks c1) = 0%nat)) as [Hlen|Hlen]; simpl;
    rewrite <-Ht; (split; [done|]); (split; [congruence|]).
  - by destruct (tasks c1).
  - destruct (tasks c1); [done | congruence].
Qed.

(** The success path removes the first entry equal to the description. *)
Lemma complete_removes_first d c :
  d ∈ tasks c →
  ∃ l1 l2, tasks c = l1 ++ d :: l2 ∧ (d ∉ l1) ∧ tasks (complete d c) = l1 ++ l2.
Proof.
  intros Hin. destruct (indexOf_present _ _ Hin) as (l1 & l2 & Hl & Hl1 & Hi).
  exists l1, l2. split_and!; [done..|]. unfold complete. simpl.
  case_decide as Hne; [|lia]. rewrite Hi, Hl. apply splice1_middle.
Qed.

(** ** Counting *)

Lemma count_app {A} (f : A → bool) l1 l2 : count f (l1 ++ l2) = (count f l1 + count f l2)%nat.
Proof. induction l1 as [|x l1 IH]; simpl; [done|]. rewrite IH. lia. Qed.

Lemma count_insert {A} (f : A → bool) l i x y :
  l !! i = Some x →
  (count f (<[i:=y]> l) + (if f x then 1 else 0) = count f l + (if f y then 1 else 0))%nat.
Proof.
  intros Hi. rewrite insert_take_drop by by eapply lookup_lt_Some.
  rewrite <-(take_drop_middle l i x) at 3 by done.
  rewrite !count_app. simpl. lia.
Qed.

Lemma count_lookup {A} (f : A → bool) l i x :
  l !! i = Some x → f x = true → (0 < count f l)%nat.
Proof.
  intros Hi Hf. rewrite <-(take_drop_middle l i x) by done.
  rewrite count_app. simpl. rewrite Hf. lia.
Qed.

Lemma count_positive {A} (f : A → bool) l :
  (0 < count f l)%nat → ∃ x, x ∈ l ∧ f x = true.
Proof.
  induction l as [|x l IH]; simpl; [lia|].
  destruct (f x) eqn:Hx.
  - intros _. exists x. split; [by left | done].
  - intros (y & ? & ?)%IH. exists y. split; [by right | done].
Qed.

(** ** The invariant of reachable systems *)

Lemma consistent_boot fill : consistent (boot fill).
Proof. split; simpl; [done | done | done | constructor]. Qed.

Lemma consistent_step s ev s' fx :
  consistent s → step s ev = Some (s', fx) → consistent s'.
Proof.
  intros [Hp Hf Ht Hs] Hstep. destruct ev as [d duration task after|p o|i].
  - rewrite step_Call in Hstep. simplify_eq.
    destruct (task_enter_fields d (client s)) as (Hst & Hta & Hfi).
    split; simpl.
    + intros d'. rewrite Hta, !count_app, Hp. simpl. unfold listed. simpl.
      by rewrite andb_true_r.
    + rewrite Hfi, count_app, Hf. simpl. lia.
    + rewrite Hst, Hta. split; [done|]. by intros [_ ?]%app_eq_nil.
    + done.
  - apply step_Settle in Hstep as (Hnone & -> & ->). split; simpl; [done..|].
    rewrite fmap_app. simpl. apply NoDup_app. split_and!; [done | | apply NoDup_singleton].
    intros q Hq ->%list_elem_of_singleton. by apply state_of_None in Hnone.
  - apply step_Resume in Hstep as (d & fr & fr' & Hi & Hres & Hpr & Hinv).
    assert (∀ d' fr0, listed d' {| description := d; at_ := fr0 |} =
      bool_decide (d = d') &&
      match fr0 with Returned (Js.Fulfilled _) => false | _ => true end) as Hl by done.
    assert (∀ fr0, succeeded {| description := d; at_ := fr0 |} =
      match fr0 with Returned (Js.Fulfilled _) => true | _ => false end) as Hsu by done.
    pose proof (λ d', count_insert (listed d') _ _ _
      {| description := d; at_ := fr' |} Hi) as Hcl.
    pose proof (count_insert succeeded _ _ _
      {| description := d; at_ := fr' |} Hi) as Hcs.
    rewrite <-Hinv in Hcl, Hcs. rewrite !Hsu in Hcs. setoid_rewrite Hl in Hcl.
    clear Hl Hsu.
    remember (client s') as c' eqn:Hc.
    destruct Hres as [? ? ? ? ? ? Haw Hw|duration ? ? ? ? e Haw Hw|? ? ? ? e Haw
                     |started v|started e]; simpl in Hcl, Hcs.
    + split; [|rewrite <-Hc; lia|by rewrite <-Hc|by rewrite Hpr].
      intros d'. specialize (Hcl d'). rewrite <-Hc, Hp. lia.
    + destruct (task_failed_fields d (Some (time duration)) e (client s)) as (Hst & Hta & Hfi & _).
      rewrite Hc in Hst, Hta, Hfi.
      split; [|lia|by rewrite Hst, Hta|by rewrite Hpr].
      intros d'. specialize (Hcl d'). rewrite Hta, Hp. lia.
    + destruct (task_failed_fields d None e (client s)) as (Hst & Hta & Hfi & _).
      rewrite Hc in Hst, Hta, Hfi.
      split; [|lia|by rewrite Hst, Hta|by rewrite Hpr].
      intros d'. specialize (Hcl d'). rewrite Hta, Hp. lia.
    + destruct (task_finished_fields d started (client s)) as (Hta & Hfi & Hst).
      rewrite Hc in Hst, Hta, Hfi.
      assert (d ∈ tasks (client s)) as Hin.
      { pose proof (count_lookup (listed d) _ _ _ Hi) as Hpos.
        unfold listed in Hpos at 1. simpl in Hpos.
        rewrite bool_decide_eq_true_2 in Hpos by done.
        rewrite <-Hp in Hpos. destruct (count_positive _ _ (Hpos eq_refl)) as (x & ? & Hx).
        apply bool_decide_eq_true in Hx. by subst. }
      destruct (complete_removes_first d _ Hin) as (l1 & l2 & Hl & _ & Hl').
      split; [|lia| |by rewrite Hpr].
      * intros d'. specialize (Hcl d'). specialize (Hp d').
        rewrite Hta, Hl'. rewrite Hl in Hp. rewrite count_app in *. simpl in Hp.
        rewrite andb_true_r, andb_false_r in Hcl. lia.
      * rewrite Hst, Hta. destruct (tasks (complete d (client s))) eqn:Hcm; [done|].
        split; [|done]. intros Hnone. apply Ht in Hnone. rewrite Hnone in Hin.
        by apply elem_of_nil in Hin.
    + destruct (task_failed_fields d (Some started) e (client s)) as (Hst & Hta & Hfi & _).
      rewrite Hc in Hst, Hta, Hfi.
      split; [|lia|by rewrite Hst, Hta|by rewrite Hpr].
      intros d'. specialize (Hcl d'). rewrite Hta, Hp. lia.
Qed.

Lemma consistent_run evs : ∀ s s' fx,
  consistent s → run s evs = Some (s', fx) → consistent s'.
Proof.
  induction evs as [|ev evs IH]; simpl; intros s s' fx Hs Hrun; [by simplify_eq|].
  destruct (step s ev) as [[s1 fx1]|] eqn:Hstep; [|done].
  destruct (run s1 evs) as [[s2 fx2]|] eqn:Hrest; [|done]. simplify_eq.
  eapply IH; [|done]. by eapply consistent_step.
Qed.

Lemma reachable_consistent s : reachable s → consistent s.
Proof. intros (fill & evs & fx & Hrun). eapply consistent_run; [apply consistent_boot | done]. Qed.

Lemma reachable_boot fill : reachable (boot fill).
Proof. by exists fill, [], []. Qed.

Lemma state_after_reachable fill evs : reachable (state_after fill evs).
Proof.
  unfold state_after. destruct (run (boot fill) evs) as [[s fx]|] eqn:Hrun.
  - by exists fill, evs, fx.
  - apply reachable_boot.
Qed.

Lemma run_app evs1 : ∀ evs2 s s1 fx1,
  run s evs1 = Some (s1, fx1) →
  run s (evs1 ++ evs2) =
  match run s1 evs2 with Some (s2, fx2) => Some (s2, fx1 ++ fx2) | None => None end.
Proof.
  induction evs1 as [|ev evs1 IH]; simpl; intros evs2 s s1 fx1 Hrun.
  - simplify_eq. by destruct (run s1 evs2) as [[]|].
  - destruct (step s ev) as [[s' fx]|]; [|done].
    destruct (run s' evs1) as [[s'' fx']|] eqn:Hrest; [|done]. simplify_eq.
    rewrite (IH evs2 _ _ _ Hrest). destruct (run s1 evs2) as [[]|]; [|done].
    by rewrite app_assoc.
Qed.

Lemma run_cons s ev evs :
  run s (ev :: evs) =
  match step s ev with
  | None => None
  | Some (s', fx) =>
      match run s' evs with
      | None => None
      | Some (s'', fx') => Some (s'', fx ++ fx')
      end
  end.
Proof. done. Qed.

Lemma reachable_step s ev s' fx : reachable s → step s ev = Some (s', fx) → reachable s'.
Proof.
  intros (fill & evs & fx0 & Hrun) Hstep. exists fill, (evs ++ [ev]), (fx0 ++ fx ++ []).
  rewrite (run_app _ _ _ _ _ Hrun). simpl. by rewrite Hstep.
Qed.

Lemma reachable_run s evs s' fx : reachable s → run s evs = Some (s', fx) → reachable s'.
Proof.
  intros (fill & evs0 & fx0 & Hrun) Hrest. exists fill, (evs0 ++ evs), (fx0 ++ fx).
  rewrite (run_app _ _ _ _ _ Hrun). by rewrite Hrest.
Qed.

(** ** Settling an invocation *)

Lemma listed_in_tasks s i inv :
  consistent s → invocations s !! i = Some inv →
  listed (description inv) inv = true → description inv ∈ tasks (client s).
Proof.
  intros [Hp _ _ _] Hi Hl.
  pose proof (count_lookup (listed (description inv)) _ _ _ Hi Hl) as Hpos.
  rewrite <-Hp in Hpos. destruct (count_positive _ _ Hpos) as (x & ? & Hx).
  apply bool_decide_eq_true in Hx. by subst.
Qed.

Lemma resumed_frame s i s' fx d fr' :
  step s (Resume i) = Some (s', fx) →
  invocations s' !! i = Some {| description := d; at_ := fr' |} →
  ∃ fr, invocations s !! i = Some {| description := d; at_ := fr |} ∧
        resumption d (promises s) (client s) fr (client s') fx fr' ∧
        promises s' = promises s ∧
        invocations s' = <[i := {| description := d; at_ := fr' |}]> (invocations s).
Proof.
  intros (d0 & fr & fr0 & Hi & Hres & Hp & Hinv)%step_Resume Hi'.
  rewrite Hinv, list_lookup_insert_eq in Hi' by by eapply lookup_lt_Some.
  simplify_eq. by exists fr.
Qed.

Lemma resumed_fulfilled s i s' fx d v :
  step s (Resume i) = Some (s', fx) →
  invocations s' !! i = Some {| description := d; at_ := Returned (Js.Fulfilled v) |} →
  ∃ started,
    invocations s !! i = Some {| description := d; at_ := AwaitTask started (Js.Fulfilled v) |} ∧
    client s' = (task_finished d started (client s)).1 ∧
    fx = (task_finished d started (client s)).2.
Proof.
  intros Hstep Hi'. destruct (resumed_frame _ _ _ _ _ _ Hstep Hi') as (fr & Hi & Hres & _).
  inversion Hres; subst. by eexists.
Qed.

Lemma resumed_rejected s i s' fx d e :
  step s (Resume i) = Some (s', fx) →
  invocations s' !! i = Some {| description := d; at_ := Returned (Js.Rejected e) |} →
  ∃ started fx0,
    client s' = (task_failed d started e (client s)).1 ∧
    fx = fx0 ++ (task_failed d started e (client s)).2 ∧
    (fx0 = [] ∨ fx0 = [logger_info d []]).
Proof.
  intros Hstep Hi'. destruct (resumed_frame _ _ _ _ _ _ Hstep Hi') as (fr & Hi & Hres & _).
  inversion Hres; subst.
  - exists (Some (time duration)), [logger_info d []]. auto.
  - exists None, []. auto.
  - exists (Some started), []. auto.
Qed.

Lemma fulfilled_was_listed s i s' fx d v :
  reachable s →
  step s (Resume i) = Some (s', fx) →
  invocations s' !! i = Some {| description := d; at_ := Returned (Js.Fulfilled v) |} →
  d ∈ tasks (client s).
Proof.
  intros Hreach Hstep Hi'.
  destruct (resumed_fulfilled _ _ _ _ _ _ Hstep Hi') as (started & Hi & _).
  apply (listed_in_tasks s i _ (reachable_consistent _ Hreach) Hi).
  apply andb_true_intro. split; [by apply bool_decide_eq_true | done].
Qed.

(** C9. Whenever an invocation reaches the success path, the pending list
    holds an entry equal to its description: [indexOf] finds it (it does not
    return -1, so the guard of line 143 always passes), [splice] removes it,
    and the list is shorter by exactly one entry afterwards. This holds in
    every system a client can reach, with duplicate descriptions, interleaved
    completions and failed entries left behind. *)
Theorem success_finds_its_description s i s' fx d v :
  reachable s →
  step s (Resume i) = Some (s', fx) →
  invocations s' !! i = Some {| description := d; at_ := Returned (Js.Fulfilled v) |} →
  d ∈ tasks (client s) ∧
  Js.indexOf d (tasks (client s)) ≠ -1 ∧
  tasks (client s') = Js.splice1 (Js.indexOf d (tasks (client s))) (tasks (client s)) ∧
  S (length (tasks (client s'))) = length (tasks (client s)).
Proof.
  intros Hreach Hstep Hi'.
  pose proof (fulfilled_was_listed _ _ _ _ _ _ Hreach Hstep Hi') as Hin.
  destruct (resumed_fulfilled _ _ _ _ _ _ Hstep Hi') as (started & Hi & -> & _).
  destruct (task_finished_fields d started (client s)) as (-> & _ & _).
  destruct (indexOf_present _ _ Hin) as (l1 & l2 & Hl & Hl1 & Hidx).
  split_and!; [done|lia| |].
  - unfold complete. simpl. case_decide; [done|lia].
  - destruct (complete_removes_first d _ Hin) as (k1 & k2 & -> & _ & ->).
    rewrite !length_app. simpl. lia.
Qed.

Lemma success_finds_its_description_witness :
  "B" ∈ tasks (client B_running) ∧
  Js.indexOf "B" (tasks (client B_running)) ≠ -1 ∧
  tasks (client B_resolved) =
    Js.splice1 (Js.indexOf "B" (tasks (client B_running))) (tasks (client B_running)) ∧
  S (length (tasks (client B_resolved))) = length (tasks (client B_running)).
Proof.
  apply (success_finds_its_description B_running 1%nat B_resolved
           (effects_of B_running (Resume 1%nat)) "B" Js.undefined).
  - apply state_after_reachable.
  - vm_compute. reflexivity.
  - vm_compute. reflexivity.
Defined.

(** C1. When an invocation settles: on success the first entry equal to its
    description (and only that entry) leaves the pending list and
    [finishedTaskCount] grows by one; on failure the pending list, which
    still holds the description, and [finishedTaskCount] are untouched. *)
Theorem settling_updates_pending_list s i s' fx d o :
  reachable s →
  step s (Resume i) = Some (s', fx) →
  invocations s' !! i = Some {| description := d; at_ := Returned o |} →
  match o with
  | Js.Fulfilled _ =>
      (∃ l1 l2, tasks (client s) = l1 ++ d :: l2 ∧ (d ∉ l1) ∧
                tasks (client s') = l1 ++ l2) ∧
      finishedTaskCount (client s') = finishedTaskCount (client s) + 1
  | Js.Rejected _ =>
      d ∈ tasks (client s') ∧
      tasks (client s') = tasks (client s) ∧
      finishedTaskCount (client s') = finishedTaskCount (client s)
  end.
Proof.
  intros Hreach Hstep Hi'. pose proof (reachable_consistent _ Hreach) as Hcons.
  destruct o as [v|e].
  - destruct (resumed_fulfilled _ _ _ _ _ _ Hstep Hi') as (started & Hi & -> & _).
    destruct (task_finished_fields d started (client s)) as (-> & -> & _).
    split; [|done]. apply complete_removes_first.
    by eapply fulfilled_was_listed.
  - destruct (resumed_rejected _ _ _ _ _ _ Hstep Hi') as (started & fx0 & -> & _ & _).
    destruct (task_failed_fields d started e (client s)) as (_ & -> & -> & _).
    split; [|done].
    destruct (resumed_frame _ _ _ _ _ _ Hstep Hi') as (fr & Hi & Hres & _).
    apply (listed_in_tasks s i _ Hcons Hi). apply andb_true_intro.
    split; [by apply bool_decide_eq_true|]. by inversion Hres.
Qed.

Lemma settling_updates_pending_list_witness :
  (∃ l1 l2, tasks (client B_running) = l1 ++ "B" :: l2 ∧ ("B" ∉ l1) ∧
            tasks (client B_resolved) = l1 ++ l2) ∧
  finishedTaskCount (client B_resolved) = finishedTaskCount (client B_running) + 1.
Proof.
  apply (settling_updates_pending_list B_running 1%nat B_resolved
           (effects_of B_running (Resume 1%nat)) "B" (Js.Fulfilled Js.undefined)).
  - apply state_after_reachable.
  - vm_compute. reflexivity.
  - vm_compute. reflexivity.
Defined.

Lemma failed_stays_listed s i d e :
  reachable s →
  invocations s !! i = Some {| description := d; at_ := Returned (Js.Rejected e) |} →
  d ∈ tasks (client s).
Proof.
  intros Hreach Hi. apply (listed_in_tasks s i _ (reachable_consistent _ Hreach) Hi).
  apply andb_true_intro. split; [by apply bool_decide_eq_true | done].
Qed.

(** ** The effects of each part of [task] *)

Lemma updateProgress_effects c :
  (updateProgress c).2 =
  match progressElement c with
  | Some _ => [style_width (Js.to_string (percentage c) +:+ "%")]
  | None => []
  end.
Proof. unfold updateProgress. by destruct (progressElement c). Qed.

Lemma task_enter_effects d c :
  (task_enter d c).2 =
  match progressElement c with
  | Some _ => [style_width (Js.to_string (percentage (register d c)) +:+ "%")]
  | None => []
  end.
Proof. unfold task_enter. by rewrite updateProgress_effects. Qed.

Lemma task_finished_effects d started c :
  ∃ before after_,
    (task_finished d started c).2 =
      before ++ (updateProgress (complete d c)).2 ++ after_ ∧
    recomputes before = 0%nat ∧ recomputes after_ = 0%nat.
Proof.
  unfold task_finished. destruct (updateProgress (complete d c)) as [c1 fx2].
  case_decide; simpl.
  - by eexists [_], [_].
  - eexists [_], []. by rewrite app_nil_r.
Qed.

Lemma task_failed_effects d started e c :
  ∃ entry,
    (task_failed d started e c).2 =
      logger_error ("Failed " +:+ quoted d) entry ::
      match progressElement c with
      | Some _ => [style_backgroundColor "red"]
      | None => []
      end.
Proof. unfold task_failed. destruct (progressElement c); by eexists. Qed.

Lemma recomputes_app fx1 fx2 : recomputes (fx1 ++ fx2) = (recomputes fx1 + recomputes fx2)%nat.
Proof. apply count_app. Qed.

Lemma recomputes_updateProgress c :
  recomputes (updateProgress c).2 = shown c.
Proof. rewrite updateProgress_effects. unfold shown. by destruct (progressElement c). Qed.

Lemma recomputes_task_finished d started c :
  recomputes (task_finished d started c).2 = shown c.
Proof.
  destruct (task_finished_effects d started c) as (b & a & -> & Hb & Ha).
  rewrite !recomputes_app, Hb, Ha, recomputes_updateProgress. unfold shown. simpl. lia.
Qed.

Lemma recomputes_task_failed d started e c :
  recomputes (task_failed d started e c).2 = 0%nat.
Proof.
  destruct (task_failed_effects d started e c) as (entry & ->).
  by destruct (progressElement c).
Qed.

Lemma recomputes_none fx w : recomputes fx = 0%nat → style_width w ∉ fx.
Proof.
  intros H0 Hin. apply list_elem_of_lookup in Hin as [i Hi].
  pose proof (count_lookup writes_width fx i _ Hi eq_refl). unfold recomputes in H0. lia.
Qed.

Lemma style_width_in_app w fx1 fx2 fx3 :
  recomputes fx1 = 0%nat → recomputes fx3 = 0%nat →
  style_width w ∈ fx1 ++ fx2 ++ fx3 → style_width w ∈ fx2.
Proof.
  intros H1 H3 [Hin|[Hin|Hin]%elem_of_app]%elem_of_app; [|done|].
  - by apply recomputes_none in Hin.
  - by apply recomputes_none in Hin.
Qed.

Lemma updateProgress_defined c w :
  recompute_defined c → style_width w ∈ (updateProgress c).2 →
  ∃ p, w = pretty p +:+ "%" ∧ 0 ≤ p ≤ 100.
Proof.
  intros (_ & _ & _ & p & Hp & Hrange). rewrite updateProgress_effects.
  destruct (progressElement c); [|by intros ?%elem_of_nil].
  intros Hw%list_elem_of_singleton. simplify_eq. rewrite Hp. by exists p.
Qed.

Lemma register_defined d c : 0 ≤ finishedTaskCount c → recompute_defined (register d c).
Proof.
  intros Hf. unfold recompute_defined, percentage. simpl. rewrite length_app. simpl.
  split_and!; [done|lia|lia|]. apply round_percent_bounds; lia.
Qed.

Lemma complete_defined d c : 0 ≤ finishedTaskCount c → recompute_defined (complete d c).
Proof.
  intros Hf. unfold recompute_defined, percentage. simpl.
  split_and!; [lia|lia|lia|]. apply round_percent_bounds; lia.
Qed.

(** C2. In every system a client can reach, and at every step from it:
    [finishedTaskCount] and the length of the pending list are not negative;
    at both places where [updateProgress] is evaluated (after the push of
    a registration, after the increment of a success) the denominator is at
    least 1 and the rounded value, computed in doubles as line 130 does,
    lies between 0 and 100; and so every width the step writes is such a
    percentage. *)
Theorem progress_is_a_percentage s ev s' fx :
  reachable s →
  step s ev = Some (s', fx) →
  0 ≤ finishedTaskCount (client s') ∧
  (0 ≤ length (tasks (client s')))%nat ∧
  (∀ d, recompute_defined (register d (client s)) ∧
        recompute_defined (complete d (client s))) ∧
  (∀ w, style_width w ∈ fx → ∃ p, w = pretty p +:+ "%" ∧ 0 ≤ p ≤ 100).
Proof.
  intros Hreach Hstep.
  pose proof (reachable_consistent _ Hreach) as [_ Hf _ _].
  pose proof (reachable_consistent _ (reachable_step _ _ _ _ Hreach Hstep)) as [_ Hf' _ _].
  assert (0 ≤ finishedTaskCount (client s)) as Hpos by lia.
  split_and!; [lia|lia| |].
  { intros d. split; [by apply register_defined | by apply complete_defined]. }
  intros w Hw. destruct ev as [d duration task after|p o|i].
  - rewrite step_Call in Hstep. simplify_eq.
    eapply updateProgress_defined; [by apply (register_defined d)|done].
  - apply step_Settle in Hstep as (_ & -> & _). by apply elem_of_nil in Hw.
  - apply step_Resume in Hstep as (d & fr & fr' & _ & Hres & _).
    destruct Hres as [? ? ? ? ? ? Haw Hwk|duration ? ? ? ? e Haw Hwk|? ? ? ? e Haw
                     |started v|started e].
    + by apply recomputes_none in Hw.
    + apply recomputes_none in Hw; [done|].
      by rewrite recomputes_app, recomputes_task_failed.
    + apply recomputes_none in Hw; [done | apply recomputes_task_failed].
    + destruct (task_finished_effects d started (client s)) as (b & a & Heq & Hb & Ha).
      rewrite Heq in Hw. apply style_width_in_app in Hw; [|done..].
      eapply updateProgress_defined; [by apply (complete_defined d)|done].
    + apply recomputes_none in Hw; [done | apply recomputes_task_failed].
Qed.

Lemma progress_is_a_percentage_witness :
  0 ≤ finishedTaskCount (client B_resolved) ∧
  (0 ≤ length (tasks (client B_resolved)))%nat ∧
  (∀ d, recompute_defined (register d (client B_running)) ∧
        recompute_defined (complete d (client B_running))) ∧
  (∀ w, style_width w ∈ effects_of B_running (Resume 1%nat) →
        ∃ p, w = pretty p +:+ "%" ∧ 0 ≤ p ≤ 100).
Proof.
  apply (progress_is_a_percentage B_running (Resume 1%nat) B_resolved
           (effects_of B_running (Resume 1%nat))).
  - apply state_after_reachable.
  - vm_compute. reflexivity.
Defined.

(** C5. The session timer follows the pending list. In every system a
    client can reach the timer is unset exactly when the list is empty (so it
    is present whenever the list is not empty); a call starts it if it was
    unset and keeps it otherwise; a step clears it exactly when it is the
    success of an invocation that leaves the list empty; and whenever a step
    empties a non-empty list the timer is unset afterwards. *)
Theorem session_timer_follows_pending_list s ev s' fx :
  reachable s →
  step s ev = Some (s', fx) →
  (start (client s') = None ↔ tasks (client s') = []) ∧
  (∀ d duration task after, ev = Call d duration task after →
     start (client s') = Some (default (time 1000) (start (client s)))) ∧
  (start (client s) ≠ None ∧ start (client s') = None ↔
   ∃ i d v, ev = Resume i ∧
            invocations s' !! i = Some {| description := d; at_ := Returned (Js.Fulfilled v) |} ∧
            tasks (client s') = []) ∧
  (tasks (client s) ≠ [] → tasks (client s') = [] → start (client s') = None).
Proof.
  intros Hreach Hstep.
  pose proof (reachable_consistent _ Hreach) as [_ _ Ht _].
  pose proof (reachable_consistent _ (reachable_step _ _ _ _ Hreach Hstep)) as [_ _ Ht' _].
  split_and!; [done| | |by intros _ ?%Ht'].
  - intros d duration task after ->. rewrite step_Call in Hstep. simplify_eq. simpl.
    by destruct (task_enter_fields d (client s)) as (-> & _).
  - split.
    + intros [Hset Hunset]. destruct ev as [d duration task after|p o|i].
      * rewrite step_Call in Hstep. simplify_eq. simpl in Hunset.
        destruct (task_enter_fields d (client s)) as (Hst & _). congruence.
      * apply step_Settle in Hstep as (_ & _ & ->). done.
      * pose proof Hstep as (d & fr & fr' & Hi & Hres & _ & Hinv)%step_Resume.
        assert (invocations s' !! i = Some {| description := d; at_ := fr' |}) as Hi'.
        { rewrite Hinv. apply list_lookup_insert_eq. by eapply lookup_lt_Some. }
        remember (client s') as c' eqn:Hc.
        destruct Hres as [? ? ? ? ? ? Haw Hwk|duration ? ? ? ? e Haw Hwk|? ? ? ? e Haw
                         |started v|started e].
        -- congruence.
        -- by destruct (task_failed_fields d (Some (time duration)) e (client s)) as (? & _);
             congruence.
        -- by destruct (task_failed_fields d None e (client s)) as (? & _); congruence.
        -- exists i, d, v. split_and!; [done..|]. by apply Ht'.
        -- by destruct (task_failed_fields d (Some started) e (client s)) as (? & _);
             congruence.
    + intros (i & d & v & -> & Hi' & Hempty). split; [|by apply Ht'].
      pose proof (fulfilled_was_listed _ _ _ _ _ _ Hreach Hstep Hi') as Hin.
      intros Hnone%Ht. rewrite Hnone in Hin. by apply elem_of_nil in Hin.
Qed.

Lemma session_timer_follows_pending_list_witness :
  start (client (next B_resolved (Resume 0%nat))) = None ∧
  tasks (client (next B_resolved (Resume 0%nat))) = [] ∧
  start (client B_resolved) ≠ None.
Proof.
  destruct (session_timer_follows_pending_list B_resolved (Resume 0%nat)
              (next B_resolved (Resume 0%nat)) (effects_of B_resolved (Resume 0%nat)))
    as (Hiff & _ & Hcleared & _).
  - apply (reachable_step B_running (Resume 1%nat) _ (effects_of B_running (Resume 1%nat))).
    + apply state_after_reachable.
    + vm_compute. reflexivity.
  - vm_compute. reflexivity.
  - assert (tasks (client (next B_resolved (Resume 0%nat))) = []) as Hempty
      by (vm_compute; reflexivity).
    split; [by apply Hiff | split; [done|]].
    apply Hcleared. exists 0%nat, "A", Js.undefined.
    split; [done | split; [vm_compute; reflexivity | done]].
Defined.

(** ** Failure *)

Lemma returned_stays s ev s' fx i d o :
  step s ev = Some (s', fx) →
  invocations s !! i = Some {| description := d; at_ := Returned o |} →
  invocations s' !! i = Some {| description := d; at_ := Returned o |}.
Proof.
  intros Hstep Hi. destruct ev as [d' duration task after|p o'|j].
  - rewrite step_Call in Hstep. simplify_eq. simpl. by apply lookup_app_l_Some.
  - by apply step_Settle in Hstep as (_ & _ & ->).
  - apply step_Resume in Hstep as (d' & fr & fr' & Hj & Hres & _ & ->).
    destruct (decide (i = j)) as [->|Hne].
    + rewrite Hi in Hj. simplify_eq. inversion Hres.
    + by rewrite list_lookup_insert_ne.
Qed.

Lemma returned_stays_run evs : ∀ s s' fx i d o,
  run s evs = Some (s', fx) →
  invocations s !! i = Some {| description := d; at_ := Returned o |} →
  invocations s' !! i = Some {| description := d; at_ := Returned o |}.
Proof.
  induction evs as [|ev evs IH]; simpl; intros s s' fx i d o Hrun Hi; [by simplify_eq|].
  destruct (step s ev) as [[s1 fx1]|] eqn:Hstep; [|done].
  destruct (run s1 evs) as [[s2 fx2]|] eqn:Hrest; [|done]. simplify_eq.
  eapply IH; [done|]. by eapply returned_stays.
Qed.

Lemma own_step_keeps_client s ev s' fx i :
  own i ev → step s ev = Some (s', fx) →
  (∀ d o, invocations s' !! i ≠ Some {| description := d; at_ := Returned o |}) →
  client s' = client s.
Proof.
  intros Hown Hstep Hnot. destruct ev as [d' duration task after|p o'|j]; [done| |].
  - by apply step_Settle in Hstep as (_ & _ & ->).
  - simpl in Hown. subst j.
    apply step_Resume in Hstep as (d & fr & fr' & Hi & Hres & _ & Hinv).
    assert (invocations s' !! i = Some {| description := d; at_ := fr' |}) as Hi'.
    { rewrite Hinv. apply list_lookup_insert_eq. by eapply lookup_lt_Some. }
    remember (client s') as c' eqn:Hc.
    destruct Hres; try done; by apply Hnot in Hi'.
Qed.

Lemma own_run_keeps_client i evs : ∀ s s' fx,
  Forall (own i) evs → run s evs = Some (s', fx) →
  (∀ d o, invocations s' !! i ≠ Some {| description := d; at_ := Returned o |}) →
  client s' = client s.
Proof.
  induction evs as [|ev evs IH]; simpl; intros s s' fx Hown Hrun Hnot; [by simplify_eq|].
  apply Forall_cons in Hown as [Hev Hown].
  destruct (step s ev) as [[s1 fx1]|] eqn:Hstep; [|done].
  destruct (run s1 evs) as [[s2 fx2]|] eqn:Hrest; [|done]. simplify_eq.
  rewrite (IH _ _ _ Hown Hrest Hnot).
  eapply own_step_keeps_client; [done..|].
  intros d o Hi. clear IH Hown.
  by apply (returned_stays_run _ _ _ _ _ _ _ Hrest), Hnot in Hi.
Qed.

(** C3, as the code has it. [updateProgress] runs on registration and on
    success only: a step rewrites the width once if it is a call of [task]
    or the success of an invocation (and there is a progress element), and
    never otherwise. A failing invocation does not recompute the progress;
    it only logs the error and colours the progress element red. *)
Theorem recompute_on_registration_and_success s ev s' fx :
  step s ev = Some (s', fx) →
  recomputes fx = (if recomputing s' ev then shown (client s) else 0%nat) ∧
  ∀ i d e,
    ev = Resume i →
    invocations s' !! i = Some {| description := d; at_ := Returned (Js.Rejected e) |} →
    recomputes fx = 0%nat ∧
    (progressElement (client s) ≠ None →
       style_backgroundColor "red" ∈ fx ∧
       backgroundColor <$> progressElement (client s') = Some "red").
Proof.
  intros Hstep. split.
  - destruct ev as [d duration task after|p o|i].
    + rewrite step_Call in Hstep. simplify_eq. simpl.
      rewrite task_enter_effects. unfold shown. by destruct (progressElement (client s)).
    + by apply step_Settle in Hstep as (_ & -> & _).
    + apply step_Resume in Hstep as (d & fr & fr' & Hi & Hres & _ & Hinv).
      simpl. rewrite Hinv, list_lookup_insert_eq by by eapply lookup_lt_Some.
      unfold succeeded. simpl. remember (client s') as c' eqn:Hc.
      destruct Hres;
        rewrite ?recomputes_app, ?recomputes_task_failed, ?recomputes_task_finished; done.
  - intros i d e -> Hi'.
    destruct (resumed_rejected _ _ _ _ _ _ Hstep Hi') as (started & fx0 & -> & -> & Hfx0).
    split.
    + rewrite recomputes_app, recomputes_task_failed. by destruct Hfx0 as [->| ->].
    + intros Hel. destruct (task_failed_effects d started e (client s)) as (entry & ->).
      unfold task_failed. destruct (progressElement (client s)); [|done]. simpl.
      split; [|done]. apply elem_of_app. right. right. by left.
Qed.

Lemma recompute_on_registration_and_success_witness :
  recomputes (effects_of C_running (Resume 0%nat)) = 0%nat ∧
  style_backgroundColor "red" ∈ effects_of C_running (Resume 0%nat) ∧
  backgroundColor <$> progressElement (client C_rejected) = Some "red".
Proof.
  destruct (recompute_on_registration_and_success C_running (Resume 0%nat) C_rejected
              (effects_of C_running (Resume 0%nat))) as [_ Hfail].
  - vm_compute. reflexivity.
  - destruct (Hfail 0%nat "load-theme" (Js.Error "net down")) as [Hnone Hred].
    + reflexivity.
    + vm_compute. reflexivity.
    + split; [exact Hnone | apply Hred]. vm_compute. discriminate.
Defined.

(** C3, as the specification states it, fails: in Scenario C the step on
    which "load-theme" fails logs the error and sets the red marker, and
    does not rewrite the width. *)
Lemma failure_path_skips_recompute :
  ∃ s fx0 s' fx,
    run (boot (Some fill0))
      [Call "load-theme" (Some 100) (rejects (Js.Error "net down")) []; Resume 0%nat]
      = Some (s, fx0) ∧
    step s (Resume 0%nat) = Some (s', fx) ∧
    at_ <$> invocations s' !! 0%nat = Some (Returned (Js.Rejected (Js.Error "net down"))) ∧
    style_backgroundColor "red" ∈ fx ∧
    recomputes fx = 0%nat ∧
    ∀ w, style_width w ∉ fx.
Proof.
  eexists _, _, _, _. split; [vm_compute; reflexivity|].
  split; [vm_compute; reflexivity|].
  split; [done|]. split; [right; left|]. split; [done|].
  intros w. by apply recomputes_none.
Qed.

(** C10, as the code has it. The failure path itself changes nothing: the
    step on which an invocation rejects leaves the pending list,
    [finishedTaskCount], the session timer and the width of the progress
    element as they were just before it, and does not rewrite the width.
    When in addition no other invocation was called or resumed since this
    one was registered, these are the values its registration left. *)
Theorem failure_path_changes_nothing s0 d duration task after evs s1 fx1 s2 fx2 e :
  run s0 (Call d duration task after :: evs) = Some (s1, fx1) →
  step s1 (Resume (length (invocations s0))) = Some (s2, fx2) →
  invocations s2 !! length (invocations s0) =
    Some {| description := d; at_ := Returned (Js.Rejected e) |} →
  (tasks (client s2) = tasks (client s1) ∧
   finishedTaskCount (client s2) = finishedTaskCount (client s1) ∧
   start (client s2) = start (client s1) ∧
   width <$> progressElement (client s2) = width <$> progressElement (client s1) ∧
   recomputes fx2 = 0%nat) ∧
  (Forall (own (length (invocations s0))) evs →
   tasks (client s2) = tasks (client s0) ++ [d] ∧
   finishedTaskCount (client s2) = finishedTaskCount (client s0) ∧
   start (client s2) = Some (default (time 1000) (start (client s0))) ∧
   width <$> progressElement (client s2) =
     width <$> progressElement (task_enter d (client s0)).1).
Proof.
  intros Hrun Hstep Hi2.
  destruct (resumed_rejected _ _ _ _ _ _ Hstep Hi2) as (started & fx0 & Hc2 & Hfx & Hfx0).
  destruct (task_failed_fields d started e (client s1)) as (Hst & Hta & Hfi & Hwi).
  rewrite <-Hc2 in Hst, Hta, Hfi, Hwi.
  assert (recomputes fx2 = 0%nat) as Hre.
  { rewrite Hfx, recomputes_app, recomputes_task_failed. by destruct Hfx0 as [->| ->]. }
  split; [done|]. intros Hown.
  rewrite run_cons, step_Call in Hrun.
  destruct (run _ evs) as [[s1' fx1']|] eqn:Hrest; [|done]. simplify_eq.
  assert (client s1 = (task_enter d (client s0)).1) as Hc1.
  { rewrite (own_run_keeps_client _ _ _ _ _ Hown Hrest); [done|].
    intros d' o Hi1.
    apply step_Resume in Hstep as (d'' & fr & fr' & Hi & Hres & _).
    rewrite Hi1 in Hi. simplify_eq. inversion Hres. }
  rewrite Hta, Hfi, Hst, Hwi, Hc1.
  by destruct (task_enter_fields d (client s0)) as (-> & -> & ->).
Qed.

Lemma failure_path_changes_nothing_witness :
  (tasks (client C_rejected) = tasks (client C_running) ∧
   finishedTaskCount (client C_rejected) = finishedTaskCount (client C_running) ∧
   start (client C_rejected) = start (client C_running) ∧
   width <$> progressElement (client C_rejected) =
     width <$> progressElement (client C_running) ∧
   recomputes (effects_of C_running (Resume 0%nat)) = 0%nat) ∧
  tasks (client C_rejected) = ["load-theme"] ∧
  finishedTaskCount (client C_rejected) = 0 ∧
  start (client C_rejected) = Some (time 1000) ∧
  width <$> progressElement (client C_rejected) = Some "0%".
Proof.
  destruct (failure_path_changes_nothing (boot (Some fill0)) "load-theme" (Some 100)
              (rejects (Js.Error "net down")) [] [Resume 0%nat]
              C_running (effects_after (Some fill0) scenario_C)
              C_rejected (effects_of C_running (Resume 0%nat)) (Js.Error "net down"))
    as [Hstep Halone].
  - vm_compute. reflexivity.
  - vm_compute. reflexivity.
  - vm_compute. reflexivity.
  - split; [exact Hstep|]. apply Halone. repeat constructor.
Defined.

(** C10, as the specification states it, fails when invocations interleave:
    "A" and "B" are registered, "A" succeeds, then "B" fails. When "B"
    rejects the pending list and [finishedTaskCount] are not what they were
    right after the registration of "B". *)
Lemma failure_state_differs_from_registration :
  ∃ s_reg fx1 s_rej fx2,
    run (boot (Some fill0))
      [Call "A" None (resolves Js.undefined) [];
       Call "B" None (rejects (Js.Error "net down")) []] = Some (s_reg, fx1) ∧
    run s_reg [Resume 0%nat; Resume 0%nat; Resume 1%nat; Resume 1%nat] = Some (s_rej, fx2) ∧
    at_ <$> invocations s_rej !! 1%nat = Some (Returned (Js.Rejected (Js.Error "net down"))) ∧
    tasks (client s_reg) = ["A"; "B"] ∧ finishedTaskCount (client s_reg) = 0 ∧
    tasks (client s_rej) = ["B"] ∧ finishedTaskCount (client s_rej) = 1.
Proof.
  eexists _, _, _, _. split; [vm_compute; reflexivity|].
  split; [vm_compute; reflexivity|]. done.
Qed.

(** ** Registration and the wait for the dependencies *)

Lemma resume_after_dependencies s i d budget task after since waitFor :
  invocations s !! i = Some {| description := d; at_ := AwaitDeps budget task after since |} →
  awaited after since (promises s) = Js.AllFulfilled waitFor →
  ∃ s' fx, step s (Resume i) = Some (s', fx) ∧
           at_ <$> invocations s' !! i = Some (entered task budget waitFor).
Proof.
  intros Hi Haw. unfold step, entered. rewrite Hi. simpl. rewrite Haw.
  destruct (task waitFor) as [e|p].
  - destruct (task_failed _ _ _ _) as [c' fx']. eexists _, _. split; [done|]. simpl.
    by rewrite list_lookup_insert_eq by by eapply lookup_lt_Some.
  - eexists _, _. split; [done|]. simpl.
    by rewrite list_lookup_insert_eq by by eapply lookup_lt_Some.
Qed.

Lemma pending_list_in_call_order (calls : list (string * option Z * (list Js.any → work_result) * list nat)) :
  ∀ s, ∃ s' fx,
    run s ((λ '(d, duration, task, after), Call d duration task after) <$> calls) = Some (s', fx) ∧
    tasks (client s') = tasks (client s) ++ calls.*1.*1.*1.
Proof.
  induction calls as [|[[[d duration] task] after] calls IH]; intros s.
  - exists s, []. by rewrite app_nil_r.
  - rewrite fmap_cons, run_cons, step_Call.
    destruct (IH {| client := (task_enter d (client s)).1; promises := promises s;
                    invocations := invocations s ++
                      [{| description := d;
                          at_ := AwaitDeps (default 100 duration) task after
                                   (length (promises s)) |}] |}) as (s' & fx & -> & Ht).
    eexists _, _. split; [done|]. rewrite Ht. simpl.
    destruct (task_enter_fields d (client s)) as (_ & -> & _). by rewrite <-app_assoc.
Qed.

(** C6. A call of [task] appends the description to the pending list at
    once and suspends the invocation at the wait for its dependencies: no
    dependency needs to have settled and the work function has not been
    called. From there one resumption takes it to the work function: with
    no dependencies at once, on the empty argument list; with dependencies
    as soon as all of them are fulfilled, on their values in the order
    supplied, however they settled; it fails as soon as one of them is
    rejected, whatever the others do; and it cannot be resumed while one is
    pending and none is rejected. *)
Theorem registration_then_one_combined_wait s d duration task after :
  reachable s →
  (∃ s1 fx1,
     step s (Call d duration task after) = Some (s1, fx1) ∧
     tasks (client s1) = tasks (client s) ++ [d] ∧
     promises s1 = promises s ∧
     invocations s1 = invocations s ++
       [{| description := d;
           at_ := AwaitDeps (default 100 duration) task after (length (promises s)) |}]) ∧
  ∀ i budget since,
    invocations s !! i = Some {| description := d; at_ := AwaitDeps budget task after since |} →
    (after = [] →
       ∃ s' fx, step s (Resume i) = Some (s', fx) ∧
                at_ <$> invocations s' !! i = Some (entered task budget [])) ∧
    (∀ waitFor,
       Forall2 (λ p v, Js.state_of p (promises s) = Some (Js.Fulfilled v)) after waitFor →
       ∃ s' fx, step s (Resume i) = Some (s', fx) ∧
                at_ <$> invocations s' !! i = Some (entered task budget waitFor)) ∧
    (∀ p e,
       p ∈ after → Js.state_of p (promises s) = Some (Js.Rejected e) →
       ∃ s' fx e', step s (Resume i) = Some (s', fx) ∧
                   at_ <$> invocations s' !! i = Some (Returned (Js.Rejected e'))) ∧
    (∀ p,
       p ∈ after → Js.state_of p (promises s) = None →
       (∀ q e, q ∈ after → Js.state_of q (promises s) ≠ Some (Js.Rejected e)) →
       step s (Resume i) = None).
Proof.
  intros Hreach. pose proof (reachable_consistent _ Hreach) as [_ _ _ Hnd]. split.
  { rewrite step_Call. eexists _, _. split; [done|]. simpl.
    by destruct (task_enter_fields d (client s)) as (_ & -> & _). }
  intros i budget since Hi. split_and!.
  - intros ->. by eapply resume_after_dependencies.
  - intros waitFor Hall. eapply resume_after_dependencies; [done|].
    by apply awaited_when_all_fulfilled.
  - intros p e Hp Hst.
    destruct (awaited_when_one_rejected after since _ p e Hp Hst) as (e' & Haw).
    unfold step. rewrite Hi. simpl. rewrite Haw.
    destruct (task_failed _ _ _ _) as [c' fx']. eexists _, _, e'. split; [done|]. simpl.
    by rewrite list_lookup_insert_eq by by eapply lookup_lt_Some.
  - intros p Hp Hst Hnone. unfold step. rewrite Hi. simpl.
    by rewrite (awaited_while_one_pending after since _ p Hnd Hp Hst Hnone).
Qed.

Lemma registration_then_one_combined_wait_witness :
  ∃ s' fx,
    step sum_waiting (Resume 0%nat) = Some (s', fx) ∧
    at_ <$> invocations s' !! 0%nat = Some (entered sum 100 [Js.number 1; Js.number 2]).
Proof.
  destruct (registration_then_one_combined_wait sum_waiting "sum" None sum [7; 8]%nat)
    as [_ Hwait].
  - apply state_after_reachable.
  - destruct (Hwait 0%nat 100 0%nat) as (_ & Hall & _).
    + vm_compute. reflexivity.
    + apply Hall. repeat constructor.
Defined.

(** ** Where outcomes come from *)

Lemma fulfilled_with_mono hist hist' after waitFor :
  hist ⊆ hist' → fulfilled_with hist after waitFor → fulfilled_with hist' after waitFor.
Proof. intros Hsub Hall. eapply Forall2_impl; [done|]. intros p v. apply Hsub. Qed.

Lemma provenance_mono task after hist hist' fr :
  hist ⊆ hist' → provenance task after hist fr → provenance task after hist' fr.
Proof.
  intros Hsub. destruct fr as [| |[v|e]]; simpl; [done| | |].
  - intros (w & ? & ?). exists w. eauto using fulfilled_with_mono.
  - intros (w & ? & ?). exists w. eauto using fulfilled_with_mono.
  - intros [(w & ? & ?)|(p & ? & ?)]; [left|right].
    + exists w. eauto using fulfilled_with_mono.
    + exists p. eauto.
Qed.

Lemma awaited_fulfilled_with after since hist waitFor :
  awaited after since hist = Js.AllFulfilled waitFor → fulfilled_with hist after waitFor.
Proof.
  intros Haw%awaited_fulfilled. eapply Forall2_impl; [done|].
  intros p v. apply state_of_elem.
Qed.

Lemma provenance_resumption task after d hist c fr c' fx fr' :
  resumption d hist c fr c' fx fr' →
  provenance task after hist fr → provenance task after hist fr'.
Proof.
  intros Hres. destruct Hres as [? ? ? ? w p Haw Hw|? ? ? ? w e Haw Hw|? ? ? ? e Haw
                                |started v|started e]; simpl.
  - intros [-> ->]. exists w. split; [by eapply awaited_fulfilled_with | done].
  - intros [-> ->]. left. exists w. split; [by eapply awaited_fulfilled_with | auto].
  - intros [-> ->]. right. by eapply awaited_rejected.
  - done.
  - intros (w & ? & ?). left. exists w. auto.
Qed.

Lemma provenance_step task after s ev s' fx i d fr :
  step s ev = Some (s', fx) →
  invocations s !! i = Some {| description := d; at_ := fr |} →
  provenance task after (promises s) fr →
  ∃ fr', invocations s' !! i = Some {| description := d; at_ := fr' |} ∧
         provenance task after (promises s') fr'.
Proof.
  intros Hstep Hi Hprov. destruct ev as [d' duration task' after'|p o|j].
  - rewrite step_Call in Hstep. simplify_eq. exists fr. simpl.
    split; [by apply lookup_app_l_Some | done].
  - apply step_Settle in Hstep as (_ & _ & ->). exists fr. simpl. split; [done|].
    eapply provenance_mono; [|done]. intros x Hx. apply elem_of_app. by left.
  - apply step_Resume in Hstep as (d' & fr0 & fr' & Hj & Hres & -> & ->).
    destruct (decide (i = j)) as [->|Hne].
    + rewrite Hi in Hj. simplify_eq. exists fr'.
      split; [apply list_lookup_insert_eq; by eapply lookup_lt_Some|].
      by eapply provenance_resumption.
    + exists fr. by rewrite list_lookup_insert_ne.
Qed.

Lemma provenance_run task after evs : ∀ s s' fx i d fr,
  run s evs = Some (s', fx) →
  invocations s !! i = Some {| description := d; at_ := fr |} →
  provenance task after (promises s) fr →
  ∃ fr', invocations s' !! i = Some {| description := d; at_ := fr' |} ∧
         provenance task after (promises s') fr'.
Proof.
  induction evs as [|ev evs IH]; simpl; intros s s' fx i d fr Hrun Hi Hprov.
  { simplify_eq. by exists fr. }
  destruct (step s ev) as [[s1 fx1]|] eqn:Hstep; [|done].
  destruct (run s1 evs) as [[s2 fx2]|] eqn:Hrest; [|done]. simplify_eq.
  destruct (provenance_step _ _ _ _ _ _ _ _ _ Hstep Hi Hprov) as (fr1 & Hi1 & Hprov1).
  by eapply IH.
Qed.

Lemma settled_functional (hist : list (nat * Js.settled)) p o o' :
  NoDup hist.*1 → (p, o) ∈ hist → (p, o') ∈ hist → o = o'.
Proof.
  intros Hnd H1%(state_of_unique _ _ _ Hnd) H2%(state_of_unique _ _ _ Hnd). congruence.
Qed.

Lemma fulfilled_with_functional hist after w w' :
  NoDup hist.*1 → fulfilled_with hist after w → fulfilled_with hist after w' → w = w'.
Proof.
  intros Hnd H1. revert w'. induction H1 as [|p v after w Hp _ IH]; intros w' H2.
  - by apply Forall2_nil_inv_l in H2.
  - apply Forall2_cons_inv_l in H2 as (v' & w'' & Hp' & H2 & ->).
    pose proof (settled_functional _ _ _ _ Hnd Hp Hp'). simplify_eq. f_equal. by apply IH.
Qed.

Lemma fulfilled_with_none_rejected hist after w p e :
  NoDup hist.*1 → fulfilled_with hist after w → p ∈ after → (p, Js.Rejected e) ∉ hist.
Proof.
  intros Hnd Hall [i Hi]%list_elem_of_lookup Hrej.
  destruct (Forall2_lookup_l _ _ _ _ _ Hall Hi) as (v & _ & Hv).
  by pose proof (settled_functional _ _ _ _ Hnd Hv Hrej).
Qed.

Lemma resume_after_work s i d started p :
  invocations s !! i = Some {| description := d; at_ := AwaitTask started p |} →
  ∃ s' fx, step s (Resume i) = Some (s', fx) ∧
           at_ <$> invocations s' !! i = Some (Returned p).
Proof.
  intros Hi. unfold step. rewrite Hi. simpl. destruct p as [v|e].
  - destruct (task_finished _ _ _) as [c' fx']. eexists _, _. split; [done|]. simpl.
    by rewrite list_lookup_insert_eq by by eapply lookup_lt_Some.
  - destruct (task_failed _ _ _ _) as [c' fx']. eexists _, _. split; [done|]. simpl.
    by rewrite list_lookup_insert_eq by by eapply lookup_lt_Some.
Qed.

Lemma resume_after_rejection s i d budget task after since e :
  invocations s !! i = Some {| description := d; at_ := AwaitDeps budget task after since |} →
  awaited after since (promises s) = Js.AllRejected e →
  ∃ s' fx, step s (Resume i) = Some (s', fx) ∧
           at_ <$> invocations s' !! i = Some (Returned (Js.Rejected e)).
Proof.
  intros Hi Haw. unfold step. rewrite Hi. simpl. rewrite Haw.
  destruct (task_failed _ _ _ _) as [c' fx']. eexists _, _. split; [done|]. simpl.
  by rewrite list_lookup_insert_eq by by eapply lookup_lt_Some.
Qed.

(** C4. The promise a call of [task] returns settles with exactly what the
    work function or the dependencies produced, at every stage of the
    invocation. While it waits for its dependencies: if the combined wait
    rejects with [e], resuming it rejects the returned promise with [e]; if
    it is fulfilled, resuming it calls the work function on the values.
    While it waits for the promise of the work function, which settles as
    [p] (fulfilled with [v], or rejected with [e]): resuming it settles the
    returned promise as that same [p]. Once it has returned: a fulfilment
    value is the value the work function's promise was fulfilled with; a
    rejection reason is the one of the work function's promise, or what the
    work function threw, or the reason of a rejected dependency; and when the
    dependencies are fulfilled the outcome is the one of the work function
    on their values. *)
Theorem outcome_passes_through s0 d duration task after evs s fx fr :
  reachable s0 →
  run s0 (Call d duration task after :: evs) = Some (s, fx) →
  invocations s !! length (invocations s0) = Some {| description := d; at_ := fr |} →
  match fr with
  | AwaitDeps budget task' after' since =>
      task' = task ∧ after' = after ∧
      match awaited after since (promises s) with
      | Js.AllPending => step s (Resume (length (invocations s0))) = None
      | Js.AllFulfilled waitFor =>
          ∃ s' fx', step s (Resume (length (invocations s0))) = Some (s', fx') ∧
                    at_ <$> invocations s' !! length (invocations s0) =
                      Some (entered task budget waitFor)
      | Js.AllRejected e =>
          ∃ s' fx', step s (Resume (length (invocations s0))) = Some (s', fx') ∧
                    at_ <$> invocations s' !! length (invocations s0) =
                      Some (Returned (Js.Rejected e))
      end
  | AwaitTask _ p =>
      (∃ waitFor, fulfilled_with (promises s) after waitFor ∧ task waitFor = Returns p) ∧
      ∃ s' fx', step s (Resume (length (invocations s0))) = Some (s', fx') ∧
                at_ <$> invocations s' !! length (invocations s0) = Some (Returned p)
  | Returned o =>
      match o with
      | Js.Fulfilled v =>
          ∃ waitFor, fulfilled_with (promises s) after waitFor ∧
                     task waitFor = Returns (Js.Fulfilled v)
      | Js.Rejected e =>
          (∃ waitFor, fulfilled_with (promises s) after waitFor ∧
                      (task waitFor = Returns (Js.Rejected e) ∨ task waitFor = Throws e)) ∨
          (∃ p, p ∈ after ∧ (p, Js.Rejected e) ∈ promises s)
      end ∧
      ∀ waitFor,
        fulfilled_with (promises s) after waitFor →
        task waitFor = Returns o ∨ ∃ e, task waitFor = Throws e ∧ o = Js.Rejected e
  end.
Proof.
  intros Hreach Hrun Hi.
  pose proof (reachable_consistent _ (reachable_run _ _ _ _ Hreach Hrun)) as [_ _ _ Hnd].
  rewrite run_cons, step_Call in Hrun.
  destruct (run _ evs) as [[s1 fx1]|] eqn:Hrest; [|done]. simplify_eq.
  destruct (provenance_run task after _ _ _ _ (length (invocations s0)) d
              (AwaitDeps (default 100 duration) task after (length (promises s0))) Hrest)
    as (fr' & Hi' & Hprov); simpl.
  { by rewrite lookup_app_r, Nat.sub_diag by lia. }
  { done. }
  rewrite Hi in Hi'. simplify_eq.
  destruct fr' as [budget task' after' since|started p|o]; simpl in Hprov.
  - destruct Hprov as [-> ->]. split_and!; [done..|].
    destruct (awaited after since (promises s)) as [|waitFor|e] eqn:Haw.
    + unfold step. rewrite Hi. simpl. by rewrite Haw.
    + by eapply resume_after_dependencies.
    + by eapply resume_after_rejection.
  - split; [done|]. by eapply resume_after_work.
  - split; [by destruct o|].
    intros w Hw. destruct o as [v|e]; simpl in Hprov.
    + destruct Hprov as (w' & Hw' & Htask).
      rewrite (fulfilled_with_functional _ _ _ _ Hnd Hw Hw'). by left.
    + destruct Hprov as [(w' & Hw' & [Htask|Htask])|(p & Hp & Hrej)].
      * rewrite (fulfilled_with_functional _ _ _ _ Hnd Hw Hw'). by left.
      * rewrite (fulfilled_with_functional _ _ _ _ Hnd Hw Hw'). right. by exists e.
      * by apply (fulfilled_with_none_rejected _ _ _ _ _ Hnd Hw Hp) in Hrej.
Qed.

Lemma outcome_passes_through_witness :
  let s := next (next sum_waiting (Resume 0%nat)) (Resume 0%nat) in
  (∃ waitFor, fulfilled_with (promises s) [7; 8]%nat waitFor ∧
              sum waitFor = Returns (Js.Fulfilled (Js.number 3))) ∧
  ∀ waitFor,
    fulfilled_with (promises s) [7; 8]%nat waitFor →
    sum waitFor = Returns (Js.Fulfilled (Js.number 3)) ∨
    ∃ e, sum waitFor = Throws e ∧ Js.Fulfilled (Js.number 3) = Js.Rejected e.
Proof.
  apply (outcome_passes_through (boot None) "sum" None sum [7; 8]%nat
           [Settle 8%nat (Js.Fulfilled (Js.number 2));
            Settle 7%nat (Js.Fulfilled (Js.number 1));
            Resume 0%nat; Resume 0%nat]
           (next (next sum_waiting (Resume 0%nat)) (Resume 0%nat))
           (effects_after None
              [Call "sum" None sum [7; 8]%nat;
               Settle 8%nat (Js.Fulfilled (Js.number 2));
               Settle 7%nat (Js.Fulfilled (Js.number 1));
               Resume 0%nat; Resume 0%nat])
           (Returned (Js.Fulfilled (Js.number 3)))).
  - apply reachable_boot.
  - vm_compute. reflexivity.
  - vm_compute. reflexivity.
Defined.

(** ** The duration budget *)

Lemma task_failed_any_start d started started' e c :
  (task_failed d started e c).1 = (task_failed d started' e c).1.
Proof. unfold task_failed. by destruct (progressElement c). Qed.

Lemma task_finished_any_start d started started' c :
  (task_finished d started c).1 = (task_finished d started' c).1.
Proof.
  unfold task_finished. destruct (updateProgress (complete d c)) as [c1 fx2].
  by case_decide.
Qed.

Lemma task_resume_any_budget d fr1 fr2 hist c :
  unbudgeted_frame fr1 = unbudgeted_frame fr2 →
  match task_resume d fr1 hist c, task_resume d fr2 hist c with
  | Some (c1, _, fr1'), Some (c2, _, fr2') =>
      c1 = c2 ∧ unbudgeted_frame fr1' = unbudgeted_frame fr2'
  | None, None => True
  | _, _ => False
  end.
Proof.
  destruct fr1 as [b1 t1 a1 n1|st1 p1|o1], fr2 as [b2 t2 a2 n2|st2 p2|o2];
    simpl; intros Heq; simplify_eq; [| |done].
  - destruct (awaited a2 n2 hist) as [|w|e]; [done| |].
    + destruct (t2 w) as [e|p]; [|done].
      pose proof (task_failed_any_start d (Some (time b1)) (Some (time b2)) e c) as Hc.
      by destruct (task_failed d (Some (time b1)) e c), (task_failed d (Some (time b2)) e c).
    + by destruct (task_failed d None e c).
  - destruct p2 as [v|e].
    + pose proof (task_finished_any_start d st1 st2 c) as Hc.
      by destruct (task_finished d st1 c), (task_finished d st2 c).
    + pose proof (task_failed_any_start d (Some st1) (Some st2) e c) as Hc.
      by destruct (task_failed d (Some st1) e c), (task_failed d (Some st2) e c).
Qed.

Lemma step_any_budget s1 s2 ev budget :
  unbudgeted s1 = unbudgeted s2 →
  observed (step s1 ev) = observed (step s2 (with_budget budget ev)).
Proof.
  destruct s1 as [c1 h1 l1], s2 as [c2 h2 l2]. unfold unbudgeted. simpl.
  intros Heq. injection Heq as -> -> Hl.
  destruct ev as [d duration task after|p o|i]; simpl.
  - destruct (task_enter d c2) as [c fx]. unfold observed, unbudgeted. simpl.
    by rewrite !fmap_app, Hl.
  - destruct (Js.state_of p h2); [done|]. unfold observed, unbudgeted. simpl. by rewrite Hl.
  - pose proof (f_equal (.!! i) Hl) as Hi. simpl in Hi. rewrite !list_lookup_fmap in Hi.
    destruct (l1 !! i) as [[d1 fr1]|], (l2 !! i) as [[d2 fr2]|]; simpl in Hi; try done.
    injection Hi as -> Hfr. simpl.
    pose proof (task_resume_any_budget d2 fr1 fr2 h2 c2 Hfr) as Hres.
    destruct (task_resume d2 fr1 h2 c2) as [[[c1' fx1] fr1']|],
             (task_resume d2 fr2 h2 c2) as [[[c2' fx2] fr2']|]; try done.
    destruct Hres as [-> Hfr']. unfold observed, unbudgeted. simpl.
    rewrite !list_fmap_insert, Hl. unfold unbudgeted_invocation. simpl. by rewrite Hfr'.
Qed.

Lemma run_any_budget (budgets : nat → option Z) evs : ∀ k s1 s2,
  unbudgeted s1 = unbudgeted s2 →
  observed (run s1 evs) =
  observed (run s2 (imap (λ n, with_budget (budgets (k + n)%nat)) evs)).
Proof.
  induction evs as [|ev evs IH]; intros k s1 s2 Heq.
  { unfold observed. simpl. by rewrite Heq. }
  rewrite imap_cons, !run_cons.
  pose proof (step_any_budget s1 s2 ev (budgets (k + 0)%nat) Heq) as Hstep.
  destruct (step s1 ev) as [[s1' fx1]|],
           (step s2 (with_budget (budgets (k + 0)%nat) ev)) as [[s2' fx2]|];
    unfold observed in Hstep; simpl in Hstep; try discriminate; [|done].
  apply (inj Some) in Hstep. specialize (IH (S k) s1' s2' Hstep).
  rewrite (imap_ext _ (λ n, with_budget (budgets (S k + n)%nat)) evs)
    by (intros n x _; simpl; by rewrite Nat.add_succ_r).
  destruct (run s1' evs) as [[]|], (run s2' _) as [[]|]; done.
Qed.

(** C8. The duration budget is advisory. Give every call of [task] in a
    sequence of events any other budget (or none, for the default of 100):
    the same events are possible, and they leave the same client (pending
    list, [finishedTaskCount], session timer, progress element), the same
    settled promises, and every invocation at the same place with the same
    outcome. The budget only shows in what is logged. *)
Theorem duration_budget_is_advisory (budgets : nat → option Z) s evs :
  observed (run s (imap (λ n, with_budget (budgets n)) evs)) = observed (run s evs).
Proof. symmetry. by apply (run_any_budget budgets evs 0%nat). Qed.

(** ** The load lifecycle *)

Lemma settle_settled o p :
  Lifecycle.initialized p ≠ Lifecycle.pending → Lifecycle.settle o p = (p, []).
Proof. unfold Lifecycle.settle. by destruct (Lifecycle.initialized p). Qed.

Lemma settle_all_settled os : ∀ p,
  Lifecycle.initialized p ≠ Lifecycle.pending → Lifecycle.settle_all os p = (p, []).
Proof.
  induction os as [|o os IH]; intros p Hp; simpl; [done|].
  by rewrite settle_settled, IH.
Qed.

(** C7, as the code has it. Whatever settles the promise of [initialize()]
    and however often, the lifecycle leaves [Loading] once, with the first
    settlement: exactly one of the two handlers runs, once. If that is a
    rejection with message [m], an overlay that is present is marked with
    the class "error" and, if it has a message element, that element shows
    exactly "Failed to load: m." and one reload button is appended next to
    it. Without an overlay nothing is shown, and without a message element
    neither message nor button. *)
Theorem load_lifecycle_transitions_once p o os p' fx :
  Lifecycle.initialized p = Lifecycle.pending →
  Lifecycle.settle_all (o :: os) p = (p', fx) →
  (p', fx) = Lifecycle.settle o p ∧
  (count Lifecycle.succeeded_transition fx + count Lifecycle.failed_transition fx = 1)%nat ∧
  match o with
  | Lifecycle.resolves =>
      Lifecycle.initialized p' = Lifecycle.fulfilled ∧
      count Lifecycle.succeeded_transition fx = 1%nat
  | Lifecycle.rejects_with m =>
      Lifecycle.initialized p' = Lifecycle.rejected ∧
      count Lifecycle.failed_transition fx = 1%nat ∧
      match Lifecycle.overlay p with
      | Some ov =>
          Lifecycle.errored p' = true ∧
          match Lifecycle.message ov with
          | Some _ =>
              Lifecycle.displayed p' = Some ("Failed to load: " +:+ m +:+ ".") ∧
              Lifecycle.reload_affordances p' =
                Lifecycle.reload_affordances p ++ [Lifecycle.reload_button]
          | None =>
              Lifecycle.displayed p' = None ∧ Lifecycle.reload_affordances p' = []
          end
      | None =>
          Lifecycle.errored p' = false ∧
          Lifecycle.displayed p' = None ∧ Lifecycle.reload_affordances p' = []
      end
  end.
Proof.
  intros Hp. simpl. destruct (Lifecycle.settle o p) as [p1 fx1] eqn:Hsettle.
  assert (Lifecycle.initialized p1 ≠ Lifecycle.pending) as Hp1.
  { unfold Lifecycle.settle in Hsettle. rewrite Hp in Hsettle.
    destruct o; by simplify_eq. }
  rewrite (settle_all_settled os p1 Hp1), app_nil_r. intros; simplify_eq.
  split; [done|].
  unfold Lifecycle.settle in Hsettle. rewrite Hp in Hsettle.
  destruct o as [|m]; simplify_eq; simpl; [done|].
  split_and!; [done..|].
  unfold Lifecycle.errored, Lifecycle.displayed, Lifecycle.reload_affordances. simpl.
  destruct (Lifecycle.overlay p) as [ov|]; [|done]. simpl.
  split.
  - apply bool_decide_eq_true. unfold Lifecycle.classList_add.
    case_decide; [done|]. apply elem_of_app. right. by left.
  - by destruct (Lifecycle.message ov).
Qed.

Lemma load_lifecycle_transitions_once_witness :
  let r := Lifecycle.settle_all [Lifecycle.rejects_with "net down"; Lifecycle.resolves]
             loading_page in
  (r.1, r.2) = Lifecycle.settle (Lifecycle.rejects_with "net down") loading_page ∧
  (count Lifecycle.succeeded_transition r.2 + count Lifecycle.failed_transition r.2 = 1)%nat ∧
  Lifecycle.initialized r.1 = Lifecycle.rejected ∧
  count Lifecycle.failed_transition r.2 = 1%nat ∧
  Lifecycle.errored r.1 = true ∧
  Lifecycle.displayed r.1 = Some "Failed to load: net down." ∧
  Lifecycle.reload_affordances r.1 = [Lifecycle.reload_button].
Proof.
  apply (load_lifecycle_transitions_once loading_page (Lifecycle.rejects_with "net down")
           [Lifecycle.resolves]).
  - reflexivity.
  - vm_compute. reflexivity.
Defined.

(** C7, as the specification states it, fails on a page without the
    elements: when [initialize()] rejects with "net down" and there is no
    overlay, nothing is marked, shown or attached; and with an overlay that
    has no message element the overlay is marked but no message is shown and
    no reload button attached. *)
Lemma failed_load_without_elements :
  let headless := {| Lifecycle.overlay := None; Lifecycle.initialized := Lifecycle.pending |} in
  let bare :=
    {| Lifecycle.overlay :=
         Some {| Lifecycle.opacity := "1"; Lifecycle.classList := [];
                 Lifecycle.transitionend := []; Lifecycle.message := None |};
       Lifecycle.initialized := Lifecycle.pending |} in
  let p1 := (Lifecycle.settle (Lifecycle.rejects_with "net down") headless).1 in
  let p2 := (Lifecycle.settle (Lifecycle.rejects_with "net down") bare).1 in
  (Lifecycle.initialized p1 = Lifecycle.rejected ∧
   Lifecycle.errored p1 = false ∧
   Lifecycle.displayed p1 ≠ Some "Failed to load: net down." ∧
   length (Lifecycle.reload_affordances p1) ≠ 1%nat) ∧
  (Lifecycle.initialized p2 = Lifecycle.rejected ∧
   Lifecycle.errored p2 = true ∧
   Lifecycle.displayed p2 ≠ Some "Failed to load: net down." ∧
   length (Lifecycle.reload_affordances p2) ≠ 1%nat).
Proof. vm_compute. split_and!; done. Qed.

(** * Further properties *)

(** ** Induction over the systems a client can reach *)

Lemma run_snoc evs : ∀ s ev s' fx,
  run s (evs ++ [ev]) = Some (s', fx) →
  ∃ s1 fx1 fx2, run s evs = Some (s1, fx1) ∧ step s1 ev = Some (s', fx2).
Proof.
  induction evs as [|ev0 evs IH]; intros s ev s' fx Hrun.
  - simpl in Hrun. destruct (step s ev) as [[s1 fx1]|] eqn:Hstep; [|done].
    simplify_eq. by exists s, [], fx1.
  - rewrite <-app_comm_cons, run_cons in Hrun. rewrite run_cons.
    destruct (step s ev0) as [[s0 fx0]|]; [|done].
    destruct (run s0 (evs ++ [ev])) as [[s2 fx2]|] eqn:Hrest; [|done].
    destruct (IH _ _ _ _ Hrest) as (s1 & fx1 & fx3 & -> & Hstep). simplify_eq.
    by eexists _, _, _.
Qed.

Lemma reachable_ind (P : System → Prop) :
  (∀ fill, P (boot fill)) →
  (∀ s ev s' fx, reachable s → P s → step s ev = Some (s', fx) → P s') →
  ∀ s, reachable s → P s.
Proof.
  intros Hboot Hstep s (fill & evs & fx & Hrun). revert s fx Hrun.
  induction evs as [|ev evs IH] using rev_ind; intros s fx Hrun.
  - simpl in Hrun. simplify_eq. apply Hboot.
  - apply run_snoc in Hrun as (s1 & fx1 & fx2 & Hrun & Hlast).
    eapply Hstep; [|by eapply IH|done]. by exists fill, evs, fx1.
Qed.

(** ** Accounting of the calls *)

Lemma count_split {A} (f : A → bool) l :
  (count f l + count (λ x, negb (f x)) l = length l)%nat.
Proof. induction l as [|x l IH]; simpl; [done|]. destruct (f x); simpl; lia. Qed.

Lemma pending_length s :
  reachable s → length (tasks (client s)) = count unfinished (invocations s).
Proof.
  revert s. apply reachable_ind; [done|].
  intros s ev s' fx Hreach IH Hstep. destruct ev as [d duration task after|p o|i].
  - rewrite step_Call in Hstep. simplify_eq. simpl.
    destruct (task_enter_fields d (client s)) as (_ & -> & _).
    rewrite length_app, count_app, IH. simpl. lia.
  - by apply step_Settle in Hstep as (_ & _ & ->).
  - pose proof Hstep as (d & fr & fr' & Hi & Hres & _ & Hinv)%step_Resume.
    assert (invocations s' !! i = Some {| description := d; at_ := fr' |}) as Hi'.
    { rewrite Hinv. apply list_lookup_insert_eq. by eapply lookup_lt_Some. }
    pose proof (count_insert unfinished _ _ _ {| description := d; at_ := fr' |} Hi) as Hc.
    rewrite <-Hinv in Hc. unfold unfinished at 2 4 in Hc. unfold succeeded in Hc.
    simpl in Hc. remember (client s') as c' eqn:Hcl.
    destruct Hres as [? ? ? ? ? ? Haw Hw|duration ? ? ? ? e Haw Hw|? ? ? ? e Haw
                     |started v|started e]; simpl in Hc.
    + lia.
    + destruct (task_failed_fields d (Some (time duration)) e (client s)) as (_ & Hta & _).
      rewrite Hta. lia.
    + destruct (task_failed_fields d None e (client s)) as (_ & Hta & _).
      rewrite Hta. lia.
    + destruct (task_finished_fields d started (client s)) as (Hta & _ & _).
      rewrite Hta.
      pose proof (fulfilled_was_listed _ _ _ _ _ _ Hreach Hstep Hi') as Hin.
      destruct (complete_removes_first d _ Hin) as (l1 & l2 & Hl & _ & ->).
      rewrite Hl, length_app in IH. simpl in IH. rewrite length_app. lia.
    + destruct (task_failed_fields d (Some started) e (client s)) as (_ & Hta & _).
      rewrite Hta. lia.
Qed.



Lemma succeeded_count_step s ev s' fx :
  step s ev = Some (s', fx) →
  ∃ k : nat,
    count succeeded (invocations s') = (count succeeded (invocations s) + k)%nat ∧
    finishedTaskCount (client s') = finishedTaskCount (client s) + Z.of_nat k.
Proof.
  intros Hstep. destruct ev as [d duration task after|p o|i].
  - rewrite step_Call in Hstep. simplify_eq. simpl. exists 0%nat.
    destruct (task_enter_fields d (client s)) as (_ & _ & ->).
    rewrite count_app. simpl. split; lia.
  - apply step_Settle in Hstep as (_ & _ & ->). exists 0%nat. simpl. split; lia.
  - apply step_Resume in Hstep as (d & fr & fr' & Hi & Hres & _ & Hinv).
    pose proof (count_insert succeeded _ _ _ {| description := d; at_ := fr' |} Hi) as Hc.
    rewrite <-Hinv in Hc. unfold succeeded at 2 4 in Hc. simpl in Hc.
    remember (client s') as c' eqn:Hcl.
    destruct Hres as [? ? ? ? ? ? Haw Hw|duration ? ? ? ? e Haw Hw|? ? ? ? e Haw
                     |started v|started e]; simpl in Hc.
    + exists 0%nat. split; lia.
    + exists 0%nat.
      destruct (task_failed_fields d (Some (time duration)) e (client s)) as (_ & _ & -> & _).
      split; lia.
    + exists 0%nat.
      destruct (task_failed_fields d None e (client s)) as (_ & _ & -> & _). split; lia.
    + exists 1%nat.
      destruct (task_finished_fields d started (client s)) as (_ & -> & _). split; lia.
    + exists 0%nat.
      destruct (task_failed_fields d (Some started) e (client s)) as (_ & _ & -> & _).
      split; lia.
Qed.

(** X2. [finishedTaskCount] never decreases: over any sequence of events
    from a reachable system it grows by exactly the number of invocations
    that succeeded meanwhile, as long as fewer than 2^53 invocations have
    succeeded in all (up to there [++] on a double is exact). Calls,
    settlements of dependencies, started work functions and failures leave
    it as it is. *)
Theorem finished_count_only_grows evs : ∀ s s' fx,
  reachable s →
  run s evs = Some (s', fx) →
  Z.of_nat (count succeeded (invocations s')) < 2 ^ 53 →
  (count succeeded (invocations s) ≤ count succeeded (invocations s'))%nat ∧
  finishedTaskCount (client s') =
    finishedTaskCount (client s) +
    Z.of_nat (count succeeded (invocations s') - count succeeded (invocations s)).
Proof.
  induction evs as [|ev evs IH]; intros s s' fx Hreach Hrun Hbound.
  - simpl in Hrun. simplify_eq. split; [done|]. rewrite Nat.sub_diag. simpl. lia.
  - rewrite run_cons in Hrun.
    destruct (step s ev) as [[s1 fx1]|] eqn:Hstep; [|done].
    destruct (run s1 evs) as [[s2 fx2]|] eqn:Hrest; [|done]. simplify_eq.
    destruct (succeeded_count_step _ _ _ _ Hstep) as (k & Hk & Hf).
    destruct (IH _ _ _ (reachable_step _ _ _ _ Hreach Hstep) Hrest Hbound) as [Hle Hf'].
    split; lia.
Qed.

Lemma finished_count_only_grows_witness :
  (count succeeded (invocations B_running) ≤
   count succeeded (invocations (next B_resolved (Resume 0%nat))))%nat ∧
  finishedTaskCount (client (next B_resolved (Resume 0%nat))) =
    finishedTaskCount (client B_running) +
    Z.of_nat (count succeeded (invocations (next B_resolved (Resume 0%nat))) -
              count succeeded (invocations B_running)).
Proof.
  apply (finished_count_only_grows [Resume 1%nat; Resume 0%nat] B_running
           (next B_resolved (Resume 0%nat))
           (effects_following B_running [Resume 1%nat; Resume 0%nat])).
  - apply state_after_reachable.
  - vm_compute. reflexivity.
  - vm_compute. reflexivity.
Defined.

(** ** The progress element *)

Lemma progressElement_updateProgress c :
  progressElement (updateProgress c).1 =
  (λ el, {| width := Js.to_string (percentage c) +:+ "%";
            backgroundColor := backgroundColor el |}) <$> progressElement c.
Proof. unfold updateProgress. destruct (progressElement c) eqn:E; simpl; by rewrite ?E. Qed.

Lemma progressElement_task_finished d started c :
  progressElement (task_finished d started c).1 =
  progressElement (updateProgress (complete d c)).1.
Proof.
  unfold task_finished. destruct (updateProgress (complete d c)) as [c1 fx2].
  by case_decide.
Qed.

Lemma progressElement_task_failed d started e c :
  progressElement (task_failed d started e c).1 =
  (λ el, {| width := width el; backgroundColor := "red" |}) <$> progressElement c.
Proof. unfold task_failed. destruct (progressElement c) eqn:E; simpl; by rewrite ?E. Qed.

Lemma percentage_fields c c' :
  tasks c' = tasks c → finishedTaskCount c' = finishedTaskCount c →
  percentage c' = percentage c.
Proof. unfold percentage. by intros -> ->. Qed.

Lemma width_follows_counters s el :
  reachable s →
  invocations s ≠ [] →
  progressElement (client s) = Some el →
  width el = Js.to_string (percentage (client s)) +:+ "%".
Proof.
  intros Hreach. revert el. revert s Hreach.
  apply (reachable_ind (λ s, ∀ el, invocations s ≠ [] →
    progressElement (client s) = Some el →
    width el = Js.to_string (percentage (client s)) +:+ "%")); [done|].
  intros s ev s' fx Hreach IH Hstep el Hne Hel.
  destruct ev as [d duration task after|p o|i].
  - rewrite step_Call in Hstep. simplify_eq. simpl in *.
    unfold task_enter in *. rewrite progressElement_updateProgress in Hel.
    destruct (progressElement (register d (client s))); simpl in Hel; simplify_eq. simpl.
    destruct (updateProgress_fields (register d (client s))) as (_ & Ht & Hf & _).
    by rewrite (percentage_fields _ _ Ht Hf).
  - apply step_Settle in Hstep as (_ & _ & ->). by apply IH.
  - apply step_Resume in Hstep as (d & fr & fr' & Hi & Hres & _ & Hinv).
    assert (invocations s ≠ []) as Hne0.
    { intros Hnil. by rewrite Hnil in Hi. }
    remember (client s') as c' eqn:Hcl.
    destruct Hres as [? ? ? ? ? ? Haw Hw|duration ? ? ? ? e Haw Hw|? ? ? ? e Haw
                     |started v|started e].
    + by apply IH.
    + rewrite progressElement_task_failed in Hel.
      destruct (progressElement (client s)) as [el0|] eqn:Hel0; simpl in Hel; simplify_eq. simpl.
      destruct (task_failed_fields d (Some (time duration)) e (client s)) as (_ & Ht & Hf & _).
      rewrite (percentage_fields _ _ Ht Hf). by apply IH.
    + rewrite progressElement_task_failed in Hel.
      destruct (progressElement (client s)) as [el0|] eqn:Hel0; simpl in Hel; simplify_eq. simpl.
      destruct (task_failed_fields d None e (client s)) as (_ & Ht & Hf & _).
      rewrite (percentage_fields _ _ Ht Hf). by apply IH.
    + rewrite progressElement_task_finished, progressElement_updateProgress in Hel.
      destruct (progressElement (complete d (client s))); simpl in Hel; simplify_eq. simpl.
      destruct (task_finished_fields d started (client s)) as (Ht & Hf & _).
      by rewrite (percentage_fields (complete d (client s)) _ Ht Hf).
    + rewrite progressElement_task_failed in Hel.
      destruct (progressElement (client s)) as [el0|] eqn:Hel0; simpl in Hel; simplify_eq. simpl.
      destruct (task_failed_fields d (Some started) e (client s)) as (_ & Ht & Hf & _).
      rewrite (percentage_fields _ _ Ht Hf). by apply IH.
Qed.


(** X3. The width of the progress element is never stale: in every system
    a client can reach after at least one call of [task], the width is the
    percentage of the current counters, as line 130 computes it in doubles
    ("57%" after 40 calls and 23 successes). (Every change of the pending list
    or of [finishedTaskCount] is followed by [updateProgress] within the same
    step, and the failure path changes neither.) *)
Theorem shown_progress_is_current s el :
  reachable s →
  invocations s ≠ [] →
  progressElement (client s) = Some el →
  width el = Js.to_string (percentage (client s)) +:+ "%".
Proof. apply width_follows_counters. Qed.

Lemma shown_progress_is_current_witness :
  width {| width := "57%"; backgroundColor := EmptyString |} =
  Js.to_string (percentage (client (resolved_of_forty 23))) +:+ "%".
Proof.
  apply (shown_progress_is_current (resolved_of_forty 23)).
  - unfold resolved_of_forty. apply state_after_reachable.
  - vm_compute. discriminate.
  - vm_compute. reflexivity.
Defined.

(** X4. The error marker is persistent: in every system a client can reach
    in which some invocation has failed, the progress element, if there is
    one, has the background colour "red". No later registration, success or
    failure resets it. *)
Theorem error_marker_persists s i d e el :
  reachable s →
  invocations s !! i = Some {| description := d; at_ := Returned (Js.Rejected e) |} →
  progressElement (client s) = Some el →
  backgroundColor el = "red".
Proof.
  intros Hreach. revert i d e el. revert s Hreach.
  apply (reachable_ind (λ s, ∀ i d e el,
    invocations s !! i = Some {| description := d; at_ := Returned (Js.Rejected e) |} →
    progressElement (client s) = Some el → backgroundColor el = "red")).
  { intros fill i d e el Hi. simpl in Hi. by rewrite lookup_nil in Hi. }
  intros s ev s' fx Hreach IH Hstep j dj ej el Hj Hel.
  destruct ev as [d duration task after|p o|i].
  - rewrite step_Call in Hstep. simplify_eq. simpl in *.
    unfold task_enter in *. rewrite progressElement_updateProgress in Hel.
    apply lookup_app_Some in Hj as [Hj|[_ Hj]].
    + simpl in Hel. destruct (progressElement (client s)) as [el0|] eqn:Hel0;
        simpl in Hel; simplify_eq. simpl. by eapply IH.
    + destruct (j - length (invocations s))%nat; simpl in Hj; [by simplify_eq|].
      by rewrite lookup_nil in Hj.
  - apply step_Settle in Hstep as (_ & _ & ->). by eapply IH.
  - apply step_Resume in Hstep as (d & fr & fr' & Hi & Hres & _ & Hinv).
    rewrite Hinv in Hj.
    assert (fr' = Returned (Js.Rejected ej) ∧ j = i ∨
            invocations s !! j =
              Some {| description := dj; at_ := Returned (Js.Rejected ej) |}) as Hcase.
    { destruct (decide (j = i)) as [->|Hne].
      - rewrite list_lookup_insert_eq in Hj by by eapply lookup_lt_Some.
        left. by simplify_eq.
      - right. by rewrite list_lookup_insert_ne in Hj. }
    remember (client s') as c' eqn:Hcl.
    destruct Hres as [? ? ? ? ? ? Haw Hw|duration ? ? ? ? e Haw Hw|? ? ? ? e Haw
                     |started v|started e].
    + destruct Hcase as [[? _]|Hold]; [done|]. by eapply IH.
    + rewrite progressElement_task_failed in Hel.
      by destruct (progressElement (client s)); simpl in Hel; simplify_eq.
    + rewrite progressElement_task_failed in Hel.
      by destruct (progressElement (client s)); simpl in Hel; simplify_eq.
    + destruct Hcase as [[? _]|Hold]; [done|].
      rewrite progressElement_task_finished, progressElement_updateProgress in Hel.
      simpl in Hel. destruct (progressElement (client s)) as [el0|] eqn:Hel0;
        simpl in Hel; simplify_eq. simpl. by eapply IH.
    + rewrite progressElement_task_failed in Hel.
      by destruct (progressElement (client s)); simpl in Hel; simplify_eq.
Qed.

Lemma error_marker_persists_witness :
  backgroundColor {| width := "0%"; backgroundColor := "red" |} = "red".
Proof.
  apply (error_marker_persists C_rejected 0%nat "load-theme" (Js.Error "net down")).
  - apply (reachable_step C_running (Resume 0%nat) _ (effects_of C_running (Resume 0%nat))).
    + apply state_after_reachable.
    + vm_compute. reflexivity.
  - vm_compute. reflexivity.
  - vm_compute. reflexivity.
Defined.

(** ** The end of a burst of tasks *)

Lemma timer_budget s t :
  reachable s → start (client s) = Some t → t = time 1000.
Proof.
  intros Hreach. revert t. revert s Hreach.
  apply (reachable_ind (λ s, ∀ t, start (client s) = Some t → t = time 1000)); [done|].
  intros s ev s' fx Hreach IH Hstep t Ht.
  destruct ev as [d duration task after|p o|i].
  - rewrite step_Call in Hstep. simplify_eq. simpl in Ht.
    destruct (task_enter_fields d (client s)) as (Hst & _). rewrite Hst in Ht.
    destruct (start (client s)) as [t0|] eqn:Ht0; simpl in Ht; simplify_eq; [by apply IH|done].
  - apply step_Settle in Hstep as (_ & _ & ->). by apply IH.
  - apply step_Resume in Hstep as (d & fr & fr' & Hi & Hres & _ & Hinv).
    remember (client s') as c' eqn:Hcl.
    destruct Hres as [? ? ? ? ? ? Haw Hw|duration ? ? ? ? e Haw Hw|? ? ? ? e Haw
                     |started v|started e].
    + by apply IH.
    + destruct (task_failed_fields d (Some (time duration)) e (client s)) as (Hst & _).
      rewrite Hst in Ht. by apply IH.
    + destruct (task_failed_fields d None e (client s)) as (Hst & _).
      rewrite Hst in Ht. by apply IH.
    + destruct (task_finished_fields d started (client s)) as (_ & _ & Hst).
      rewrite Hst in Ht. destruct (tasks (complete d (client s))); [done | by apply IH].
    + destruct (task_failed_fields d (Some started) e (client s)) as (Hst & _).
      rewrite Hst in Ht. by apply IH.
Qed.

Lemma burst_line_task_finished d started c t n :
  burst_line t n ∈ (task_finished d started c).2 ↔
  tasks (complete d c) = [] ∧
  t = match start c with Some x => of_time x | None => of_undefined end ∧
  n = of_number (finishedTaskCount c + 1).
Proof.
  unfold task_finished.
  assert (finishedTaskCount (complete d c) = finishedTaskCount c + 1) as Hf' by done.
  assert (start (complete d c) = start c) as Hs' by done.
  rewrite <-Hf', <-Hs'. clear Hf' Hs'. generalize (complete d c). intros c0.
  destruct (updateProgress_fields c0) as (Hs & Ht & Hf & _).
  pose proof (updateProgress_effects c0) as Hfx.
  destruct (updateProgress c0) as [c1 fx2]. simpl in Hs, Ht, Hf, Hfx.
  assert (burst_line t n ∉ fx2) as Hno.
  { rewrite Hfx. destruct (progressElement c0); [|apply not_elem_of_nil].
    by intros ?%list_elem_of_singleton. }
  rewrite <-Ht, <-Hs, <-Hf. clear Hfx Hs Ht Hf.
  case_decide as Hlen; simpl.
  - rewrite elem_of_cons, elem_of_app, list_elem_of_singleton. unfold burst_line. split.
    + intros [?|[?|?]]; [done|done|]. simplify_eq. split; [|done]. by destruct (tasks c1).
    + intros (_ & -> & ->). auto.
  - rewrite elem_of_cons. split.
    + by intros [?|?].
    + intros [Hnil _]. by rewrite Hnil in Hlen.
Qed.

Lemma burst_line_step s ev s' fx t n :
  step s ev = Some (s', fx) →
  burst_line t n ∈ fx →
  ∃ i d v started,
    ev = Resume i ∧
    invocations s' !! i = Some {| description := d; at_ := Returned (Js.Fulfilled v) |} ∧
    fx = (task_finished d started (client s)).2 ∧
    client s' = (task_finished d started (client s)).1.
Proof.
  intros Hstep Hin. destruct ev as [d duration task after|p o|i].
  - rewrite step_Call in Hstep. simplify_eq. rewrite task_enter_effects in Hin.
    destruct (progressElement (client s)); [|by apply elem_of_nil in Hin].
    by apply list_elem_of_singleton in Hin.
  - apply step_Settle in Hstep as (_ & -> & _). by apply elem_of_nil in Hin.
  - apply step_Resume in Hstep as (d & fr & fr' & Hi & Hres & _ & Hinv).
    assert (invocations s' !! i = Some {| description := d; at_ := fr' |}) as Hi'.
    { rewrite Hinv. apply list_lookup_insert_eq. by eapply lookup_lt_Some. }
    remember (client s') as c' eqn:Hcl.
    destruct Hres as [? ? ? ? ? ? Haw Hw|duration ? ? ? ? e Haw Hw|? ? ? ? e Haw
                     |started v|started e].
    + by apply list_elem_of_singleton in Hin.
    + destruct (task_failed_effects d (Some (time duration)) e (client s)) as (entry & Heq).
      rewrite Heq in Hin. apply elem_of_cons in Hin as [?|Hin]; [done|].
      apply elem_of_cons in Hin as [?|Hin]; [done|].
      destruct (progressElement (client s)); [|by apply elem_of_nil in Hin].
      by apply list_elem_of_singleton in Hin.
    + destruct (task_failed_effects d None e (client s)) as (entry & Heq).
      rewrite Heq in Hin. apply elem_of_cons in Hin as [?|Hin]; [done|].
      destruct (progressElement (client s)); [|by apply elem_of_nil in Hin].
      by apply list_elem_of_singleton in Hin.
    + by exists i, d, v, started.
    + destruct (task_failed_effects d (Some started) e (client s)) as (entry & Heq).
      rewrite Heq in Hin. apply elem_of_cons in Hin as [?|Hin]; [done|].
      destruct (progressElement (client s)); [|by apply elem_of_nil in Hin].
      by apply list_elem_of_singleton in Hin.
Qed.

Lemma count_none {A} (f : A → bool) l :
  count f l = 0%nat → Forall (λ x, f x = false) l.
Proof.
  induction l as [|x l IH]; simpl; [constructor|].
  destruct (f x) eqn:Hx; [lia|]. intros H0. constructor; auto.
Qed.

Lemma all_succeeded_when_empty s :
  reachable s → tasks (client s) = [] →
  Forall (λ inv, succeeded inv = true) (invocations s) ∧
  finishedTaskCount (client s) = Z.of_nat (length (invocations s)).
Proof.
  intros Hreach Hnil. pose proof (pending_length _ Hreach) as Hl.
  pose proof (reachable_consistent _ Hreach) as [_ Hf _ _].
  pose proof (count_split succeeded (invocations s)) as Hsplit.
  rewrite Hnil in Hl. simpl in Hl. unfold unfinished in Hl. split; [|lia].
  eapply Forall_impl; [by apply count_none|]. intros inv. simpl.
  by destruct (succeeded inv).
Qed.

(** X5. When the line "Finished all queued tasks" is logged, everything is
    finished: a step logs it exactly when it empties a non-empty pending
    list; the session timer is cleared by that step, the duration field is
    the session timer [time(1000)], every invocation made so far has
    succeeded, and the count field is the number of all calls of [task]
    since the client was constructed (not only those of the last burst). *)
Theorem burst_line_reports_all_calls s ev s' fx :
  reachable s →
  step s ev = Some (s', fx) →
  ((∃ t n, burst_line t n ∈ fx) ↔ tasks (client s) ≠ [] ∧ tasks (client s') = []) ∧
  ∀ t n, burst_line t n ∈ fx →
    start (client s') = None ∧
    t = of_time (time 1000) ∧
    n = of_number (Z.of_nat (length (invocations s'))) ∧
    Forall (λ inv, succeeded inv = true) (invocations s').
Proof.
  intros Hreach Hstep.
  pose proof (reachable_step _ _ _ _ Hreach Hstep) as Hreach'.
  pose proof (reachable_consistent _ Hreach) as [_ _ Htimer _].
  pose proof (reachable_consistent _ Hreach') as [_ _ Htimer' _].
  assert (∀ t n, burst_line t n ∈ fx →
    tasks (client s) ≠ [] ∧ tasks (client s') = [] ∧
    t = of_time (time 1000) ∧ n = of_number (finishedTaskCount (client s'))) as Hline.
  { intros t n Hin.
    destruct (burst_line_step _ _ _ _ _ _ Hstep Hin) as (i & d & v & started & -> & Hi' & -> & Hc).
    pose proof (fulfilled_was_listed _ _ _ _ _ _ Hreach Hstep Hi') as Hlisted.
    apply burst_line_task_finished in Hin as (Hnil & -> & ->).
    destruct (task_finished_fields d started (client s)) as (Hta & Hfi & _).
    rewrite <-Hc in Hta, Hfi. rewrite Hta, Hfi. split_and!; [|done| |done].
    - intros Hempty. rewrite Hempty in Hlisted. by apply elem_of_nil in Hlisted.
    - destruct (start (client s)) as [t0|] eqn:Ht0.
      + by rewrite (timer_budget s t0 Hreach Ht0).
      + rewrite (proj1 Htimer eq_refl) in Hlisted. by apply elem_of_nil in Hlisted. }
  split.
  - split.
    + intros (t & n & Hin). by destruct (Hline t n Hin) as (? & ? & _).
    + intros [Hne Hnil]. destruct ev as [d duration task after|p o|i].
      * rewrite step_Call in Hstep. simplify_eq. simpl in Hnil.
        destruct (task_enter_fields d (client s)) as (_ & Hta & _).
        rewrite Hta in Hnil. by apply app_eq_nil in Hnil as [_ ?].
      * by apply step_Settle in Hstep as (_ & _ & ->).
      * apply step_Resume in Hstep as (d & fr & fr' & Hi & Hres & _ & Hinv).
        remember (client s') as c' eqn:Hcl.
        destruct Hres as [? ? ? ? ? ? Haw Hw|duration ? ? ? ? e Haw Hw|? ? ? ? e Haw
                         |started v|started e].
        -- done.
        -- by destruct (task_failed_fields d (Some (time duration)) e (client s))
             as (_ & Hta & _); rewrite Hta in Hnil.
        -- by destruct (task_failed_fields d None e (client s))
             as (_ & Hta & _); rewrite Hta in Hnil.
        -- destruct (task_finished_fields d started (client s)) as (Hta & _ & _).
           rewrite Hta in Hnil. eexists _, _. by apply burst_line_task_finished.
        -- by destruct (task_failed_fields d (Some started) e (client s))
             as (_ & Hta & _); rewrite Hta in Hnil.
  - intros t n Hin. destruct (Hline t n Hin) as (_ & Hnil & -> & ->).
    destruct (all_succeeded_when_empty _ Hreach' Hnil) as [Hall ->].
    split_and!; [by apply Htimer'|done..].
Qed.

Lemma burst_line_reports_all_calls_witness :
  let s := B_resolved in
  let s' := next B_resolved (Resume 0%nat) in
  ((∃ t n, burst_line t n ∈ effects_of s (Resume 0%nat)) ↔
   tasks (client s) ≠ [] ∧ tasks (client s') = []) ∧
  ∀ t n, burst_line t n ∈ effects_of s (Resume 0%nat) →
    start (client s') = None ∧
    t = of_time (time 1000) ∧
    n = of_number (Z.of_nat (length (invocations s'))) ∧
    Forall (λ inv, succeeded inv = true) (invocations s').
Proof.
  apply (burst_line_reports_all_calls B_resolved (Resume 0%nat)
           (next B_resolved (Resume 0%nat)) (effects_of B_resolved (Resume 0%nat))).
  - apply (reachable_step B_running (Resume 1%nat) _ (effects_of B_running (Resume 1%nat))).
    + apply state_after_reachable.
    + vm_compute. reflexivity.
  - vm_compute. reflexivity.
Defined.

(** X6. A failure keeps the session open for good: once an invocation has
    failed, its description is in the pending list after every later
    sequence of events, so the list is never empty again, the session timer
    is never cleared, and "Finished all queued tasks" is never logged
    again, however many other tasks succeed. *)
Theorem failure_keeps_session_open evs : ∀ s i d e s' fx,
  reachable s →
  invocations s !! i = Some {| description := d; at_ := Returned (Js.Rejected e) |} →
  run s evs = Some (s', fx) →
  d ∈ tasks (client s') ∧
  start (client s') ≠ None ∧
  ∀ t n, burst_line t n ∉ fx.
Proof.
  induction evs as [|ev evs IH]; intros s i d e s' fx Hreach Hi Hrun.
  - simpl in Hrun. simplify_eq.
    pose proof (failed_stays_listed _ _ _ _ Hreach Hi) as Hin.
    pose proof (reachable_consistent _ Hreach) as [_ _ Htimer _].
    split_and!; [done| |intros t n; apply not_elem_of_nil].
    intros Hnone%Htimer. rewrite Hnone in Hin. by apply elem_of_nil in Hin.
  - rewrite run_cons in Hrun.
    destruct (step s ev) as [[s1 fx1]|] eqn:Hstep; [|done].
    destruct (run s1 evs) as [[s2 fx2]|] eqn:Hrest; [|done]. simplify_eq.
    pose proof (reachable_step _ _ _ _ Hreach Hstep) as Hreach1.
    pose proof (returned_stays _ _ _ _ _ _ _ Hstep Hi) as Hi1.
    destruct (IH _ _ _ _ _ _ Hreach1 Hi1 Hrest) as (Hin & Hst & Hno).
    split_and!; [done..|]. intros t n [Hfx|Hfx]%elem_of_app; [|by apply Hno in Hfx].
    destruct (burst_line_step _ _ _ _ _ _ Hstep Hfx)
      as (j & dj & v & started & -> & Hj & -> & Hc).
    apply burst_line_task_finished in Hfx as (Hnil & _).
    destruct (task_finished_fields dj started (client s)) as (Hta & _).
    rewrite <-Hc, Hnil in Hta.
    pose proof (failed_stays_listed _ _ _ _ Hreach1 Hi1) as Hin1.
    rewrite Hta in Hin1. by apply elem_of_nil in Hin1.
Qed.

Lemma failure_keeps_session_open_witness :
  let later := [Call "A" None (resolves Js.undefined) []; Resume 1%nat; Resume 1%nat] in
  "load-theme" ∈ tasks (client (following C_rejected later)) ∧
  start (client (following C_rejected later)) ≠ None ∧
  ∀ t n, burst_line t n ∉ effects_following C_rejected later.
Proof.
  apply (failure_keeps_session_open
           [Call "A" None (resolves Js.undefined) []; Resume 1%nat; Resume 1%nat]
           C_rejected 0%nat "load-theme" (Js.Error "net down")).
  - apply (reachable_step C_running (Resume 0%nat) _ (effects_of C_running (Resume 0%nat))).
    + apply state_after_reachable.
    + vm_compute. reflexivity.
  - vm_compute. reflexivity.
  - vm_compute. reflexivity.
Defined.

(** ** Order and completion *)

(** X7. The pending list keeps the order of the calls: in every system a
    client can reach it is a subsequence of the descriptions of all calls of
    [task], in call order. (A success removes an entry and never reorders
    the rest.) *)
Theorem pending_list_keeps_call_order s :
  reachable s →
  tasks (client s) `sublist_of` description <$> invocations s.
Proof.
  revert s. apply reachable_ind; [intros; apply sublist_nil_l|].
  intros s ev s' fx Hreach IH Hstep. destruct ev as [d duration task after|p o|i].
  - rewrite step_Call in Hstep. simplify_eq. simpl.
    destruct (task_enter_fields d (client s)) as (_ & -> & _).
    rewrite fmap_app. by apply sublist_app.
  - by apply step_Settle in Hstep as (_ & _ & ->).
  - pose proof Hstep as (d & fr & fr' & Hi & Hres & _ & Hinv)%step_Resume.
    assert (invocations s' !! i = Some {| description := d; at_ := fr' |}) as Hi'.
    { rewrite Hinv. apply list_lookup_insert_eq. by eapply lookup_lt_Some. }
    assert (description <$> invocations s' = description <$> invocations s) as ->.
    { rewrite Hinv, list_fmap_insert. simpl. apply list_insert_id.
      by rewrite list_lookup_fmap, Hi. }
    remember (client s') as c' eqn:Hcl.
    destruct Hres as [? ? ? ? ? ? Haw Hw|duration ? ? ? ? e Haw Hw|? ? ? ? e Haw
                     |started v|started e].
    + done.
    + by destruct (task_failed_fields d (Some (time duration)) e (client s)) as (_ & -> & _).
    + by destruct (task_failed_fields d None e (client s)) as (_ & -> & _).
    + destruct (task_finished_fields d started (client s)) as (-> & _).
      pose proof (fulfilled_was_listed _ _ _ _ _ _ Hreach Hstep Hi') as Hin.
      destruct (complete_removes_first d _ Hin) as (l1 & l2 & Hl & _ & ->).
      etrans; [|done]. rewrite Hl. apply sublist_app; [done|]. by apply sublist_cons.
    + by destruct (task_failed_fields d (Some started) e (client s)) as (_ & -> & _).
Qed.

Lemma pending_list_keeps_call_order_witness :
  tasks (client B_resolved) `sublist_of` description <$> invocations B_resolved.
Proof.
  apply (pending_list_keeps_call_order B_resolved).
  apply (reachable_step B_running (Resume 1%nat) _ (effects_of B_running (Resume 1%nat))).
  - apply state_after_reachable.
  - vm_compute. reflexivity.
Defined.

Lemma round_percent_full n : 1 ≤ n → Js.round_percent n n = Js.Int 100.
Proof.
  intros Hn. unfold Js.round_percent. case_decide; [lia|]. f_equal.
  rewrite <-percent_of_1. apply Z.le_antisymm; apply percent_mono.
  - apply (quotient_le 0 n 1 n); lia.
  - apply (quotient_le n 1 n 1); lia.
  - done.
  - apply (quotient_le 1 n 1 n); lia.
Qed.

(** X8. When every task called so far has succeeded (and there was at
    least one), in whatever order they completed: the pending list is empty,
    the session timer is unset, [finishedTaskCount] is the number of calls,
    and the progress is 100, which is what the progress element shows. *)
Theorem all_succeeded_shows_complete s :
  reachable s →
  invocations s ≠ [] →
  Forall (λ inv, succeeded inv = true) (invocations s) →
  tasks (client s) = [] ∧
  start (client s) = None ∧
  finishedTaskCount (client s) = Z.of_nat (length (invocations s)) ∧
  percentage (client s) = Js.Int 100 ∧
  ∀ el, progressElement (client s) = Some el → width el = "100%".
Proof.
  intros Hreach Hne Hall.
  pose proof (pending_length _ Hreach) as Hl.
  pose proof (reachable_consistent _ Hreach) as [_ Hf Htimer _].
  assert (count unfinished (invocations s) = 0%nat) as H0.
  { clear Hl Hf Hne. induction Hall as [|inv l Hinv _ IH]; simpl; [done|].
    unfold unfinished at 1. by rewrite Hinv. }
  assert (tasks (client s) = []) as Hnil.
  { rewrite H0 in Hl. by destruct (tasks (client s)). }
  destruct (all_succeeded_when_empty _ Hreach Hnil) as [_ Hcount].
  assert (percentage (client s) = Js.Int 100) as Hpct.
  { unfold percentage. rewrite Hnil, Hcount. simpl. apply round_percent_full.
    destruct (invocations s); [done | simpl; lia]. }
  split_and!; [done|by apply Htimer|done|done|].
  intros el Hel. rewrite (width_follows_counters s el Hreach Hne Hel), Hpct.
  vm_compute. reflexivity.
Qed.

Lemma all_succeeded_shows_complete_witness :
  let s := next B_resolved (Resume 0%nat) in
  tasks (client s) = [] ∧
  start (client s) = None ∧
  finishedTaskCount (client s) = Z.of_nat (length (invocations s)) ∧
  percentage (client s) = Js.Int 100 ∧
  ∀ el, progressElement (client s) = Some el → width el = "100%".
Proof.
  apply (all_succeeded_shows_complete (next B_resolved (Resume 0%nat))).
  - apply (reachable_step B_resolved (Resume 0%nat) _ (effects_of B_resolved (Resume 0%nat))).
    + apply (reachable_step B_running (Resume 1%nat) _ (effects_of B_running (Resume 1%nat))).
      * apply state_after_reachable.
      * vm_compute. reflexivity.
    + vm_compute. reflexivity.
  - vm_compute. discriminate.
  - vm_compute. repeat constructor.
Defined.

Lemma round_percent_mono_numerator a a' b p p' :
  0 ≤ a ≤ a' → 0 < b →
  Js.round_percent a b = Js.Int p → Js.round_percent a' b = Js.Int p' → p ≤ p'.
Proof.
  unfold Js.round_percent. intros Ha Hb. case_decide; [lia|]. intros ? ?. simplify_eq.
  apply percent_mono.
  - apply (quotient_le 0 a 1 b); lia.
  - apply quotient_le; nia.
Qed.

Lemma round_percent_mono_denominator a b p p' :
  0 ≤ a → 0 < b →
  Js.round_percent a b = Js.Int p → Js.round_percent a (b + 1) = Js.Int p' → p' ≤ p.
Proof.
  unfold Js.round_percent. intros Ha Hb. repeat case_decide; try lia. intros ? ?. simplify_eq.
  apply percent_mono.
  - apply (quotient_le 0 a 1 (b + 1)); lia.
  - apply quotient_le; nia.
Qed.

(** X9. The progress moves forward on successes only: where the
    percentage is defined before and after a step, a success never lowers
    it, a call of [task] never raises it (the new task enlarges the
    denominator), and every other step leaves it as it is. The percentage is
    the one line 130 computes in doubles; rounding to the nearest double and
    [Math.round] keep the order of the exact quotients. *)
Theorem progress_moves_with_successes s ev s' fx p p' :
  reachable s →
  step s ev = Some (s', fx) →
  percentage (client s) = Js.Int p →
  percentage (client s') = Js.Int p' →
  match ev with
  | Call _ _ _ _ => p' ≤ p
  | Settle _ _ => p' = p
  | Resume i =>
      match invocations s' !! i with
      | Some inv => if succeeded inv then p ≤ p' else p' = p
      | None => p' = p
      end
  end.
Proof.
  intros Hreach Hstep Hp Hp'.
  pose proof (reachable_consistent _ Hreach) as [_ Hf _ _].
  assert (0 ≤ finishedTaskCount (client s)) as Hpos by lia.
  assert (0 < Z.of_nat (length (tasks (client s))) + finishedTaskCount (client s)) as Hden.
  { unfold percentage, Js.round_percent in Hp. case_decide; [by case_decide|lia]. }
  destruct ev as [d duration task after|q o|i].
  - rewrite step_Call in Hstep. simplify_eq. simpl in Hp'.
    destruct (task_enter_fields d (client s)) as (_ & Hta & Hfi).
    unfold percentage in Hp, Hp'. rewrite Hta, Hfi, length_app in Hp'. simpl in Hp'.
    eapply (round_percent_mono_denominator (finishedTaskCount (client s))); [done|done|done|].
    rewrite <-Hp'. f_equal. lia.
  - apply step_Settle in Hstep as (_ & _ & ->). simpl in Hp'. congruence.
  - pose proof Hstep as (d & fr & fr' & Hi & Hres & _ & Hinv)%step_Resume.
    assert (invocations s' !! i = Some {| description := d; at_ := fr' |}) as Hi'.
    { rewrite Hinv. apply list_lookup_insert_eq. by eapply lookup_lt_Some. }
    rewrite Hi'. unfold succeeded. simpl.
    remember (client s') as c' eqn:Hcl.
    destruct Hres as [? ? ? ? ? ? Haw Hw|duration ? ? ? ? e Haw Hw|? ? ? ? e Haw
                     |started v|started e].
    + congruence.
    + destruct (task_failed_fields d (Some (time duration)) e (client s)) as (_ & Hta & Hfi & _).
      rewrite (percentage_fields _ _ Hta Hfi) in Hp'. congruence.
    + destruct (task_failed_fields d None e (client s)) as (_ & Hta & Hfi & _).
      rewrite (percentage_fields _ _ Hta Hfi) in Hp'. congruence.
    + destruct (task_finished_fields d started (client s)) as (Hta & Hfi & _).
      pose proof (fulfilled_was_listed _ _ _ _ _ _ Hreach Hstep Hi') as Hin.
      destruct (complete_removes_first d _ Hin) as (l1 & l2 & Hl & _ & Hl').
      unfold percentage in Hp, Hp'. rewrite Hta, Hfi, Hl' in Hp'. rewrite Hl in Hp, Hden.
      rewrite length_app in Hp, Hp', Hden. simpl in Hp, Hden.
      eapply (round_percent_mono_numerator (finishedTaskCount (client s))
                (finishedTaskCount (client s) + 1)); [lia|exact Hden|exact Hp|].
      rewrite <-Hp'. f_equal. lia.
    + destruct (task_failed_fields d (Some started) e (client s)) as (_ & Hta & Hfi & _).
      rewrite (percentage_fields _ _ Hta Hfi) in Hp'. congruence.
Qed.

Lemma progress_moves_with_successes_witness :
  percentage (client (resolved_of_forty 22)) = Js.Int 55 ∧
  percentage (client (next (resolved_of_forty 22) (Resume 22%nat))) = Js.Int 57 ∧
  55 ≤ 57.
Proof.
  assert (reachable (resolved_of_forty 22)) as Hreach.
  { unfold resolved_of_forty. apply state_after_reachable. }
  assert (step (resolved_of_forty 22) (Resume 22%nat) =
          Some (next (resolved_of_forty 22) (Resume 22%nat),
                effects_of (resolved_of_forty 22) (Resume 22%nat))) as Hstep.
  { vm_compute. reflexivity. }
  assert (percentage (client (resolved_of_forty 22)) = Js.Int 55) as Hp.
  { vm_compute. reflexivity. }
  assert (percentage (client (next (resolved_of_forty 22) (Resume 22%nat))) = Js.Int 57) as Hp'.
  { vm_compute. reflexivity. }
  split; [exact Hp|]. split; [exact Hp'|].
  pose proof (progress_moves_with_successes _ _ _ _ _ _ Hreach Hstep Hp Hp') as H.
  vm_compute in H. exact H.
Defined.

(** ** What the log says about a task *)

Lemma budgeted_step b s ev s' fx i d fr :
  step s ev = Some (s', fx) →
  invocations s !! i = Some {| description := d; at_ := fr |} →
  budgeted b fr →
  ∃ fr', invocations s' !! i = Some {| description := d; at_ := fr' |} ∧ budgeted b fr'.
Proof.
  intros Hstep Hi Hb. destruct ev as [d' duration task' after'|p o|j].
  - rewrite step_Call in Hstep. simplify_eq. exists fr. simpl.
    split; [by apply lookup_app_l_Some | done].
  - apply step_Settle in Hstep as (_ & _ & ->). by exists fr.
  - apply step_Resume in Hstep as (d' & fr0 & fr' & Hj & Hres & _ & ->).
    destruct (decide (i = j)) as [->|Hne].
    + rewrite Hi in Hj. simplify_eq. exists fr'.
      split; [apply list_lookup_insert_eq; by eapply lookup_lt_Some|].
      destruct Hres; simpl in *; by subst.
    + exists fr. by rewrite list_lookup_insert_ne.
Qed.

Lemma budgeted_run b evs : ∀ s s' fx i d fr,
  run s evs = Some (s', fx) →
  invocations s !! i = Some {| description := d; at_ := fr |} →
  budgeted b fr →
  ∃ fr', invocations s' !! i = Some {| description := d; at_ := fr' |} ∧ budgeted b fr'.
Proof.
  induction evs as [|ev evs IH]; simpl; intros s s' fx i d fr Hrun Hi Hb.
  { simplify_eq. by exists fr. }
  destruct (step s ev) as [[s1 fx1]|] eqn:Hstep; [|done].
  destruct (run s1 evs) as [[s2 fx2]|] eqn:Hrest; [|done]. simplify_eq.
  destruct (budgeted_step _ _ _ _ _ _ _ _ Hstep Hi Hb) as (fr1 & Hi1 & Hb1).
  by eapply IH.
Qed.

(** X10. What the log says when a task settles. On success the line
    "Finished ..." carries a timer with the budget given at the call, or
    100 when none was given. On failure the line "Failed ..." carries the
    reason and, as duration, the text "not started" exactly when the task
    failed while waiting for its dependencies, and the timer with that
    budget otherwise. *)
Theorem log_carries_budget s0 d duration task after evs s fx s' fx' o :
  run s0 (Call d duration task after :: evs) = Some (s, fx) →
  step s (Resume (length (invocations s0))) = Some (s', fx') →
  invocations s' !! length (invocations s0) = Some {| description := d; at_ := Returned o |} →
  match o with
  | Js.Fulfilled _ =>
      logger_info ("Finished " +:+ quoted d)
        [field "duration" (of_time (time (default 100 duration)))] ∈ fx'
  | Js.Rejected e =>
      ∃ entry,
        logger_error ("Failed " +:+ quoted d)
          [field "duration" entry; field "error" (of_any e)] ∈ fx' ∧
        (entry = of_text "not started" ∧ dependencies_rejected s (length (invocations s0)) ∨
         entry = of_time (time (default 100 duration)) ∧
         ¬ dependencies_rejected s (length (invocations s0)))
  end.
Proof.
  intros Hrun Hstep Hi'.
  rewrite run_cons, step_Call in Hrun.
  destruct (run _ evs) as [[s1 fx1]|] eqn:Hrest; [|done]. simplify_eq.
  destruct (budgeted_run (default 100 duration) _ _ _ _ (length (invocations s0)) d
              (AwaitDeps (default 100 duration) task after (length (promises s0))) Hrest)
    as (fr & Hi & Hb); simpl.
  { by rewrite lookup_app_r, Nat.sub_diag by lia. }
  { done. }
  destruct (resumed_frame _ _ _ _ _ _ Hstep Hi') as (fr0 & Hi0 & Hres & _).
  rewrite Hi in Hi0. simplify_eq.
  remember (client s') as c' eqn:Hcl. remember (Returned o) as fr' eqn:Hfr.
  destruct Hres as [? ? ? ? ? ? Haw Hw|b ? a since ? e Haw Hw|b ? a since e Haw
                   |started v|started e]; simplify_eq; simpl in Hb; subst.
  - exists (of_time (time (default 100 duration))). split.
    + apply elem_of_app. right. unfold task_failed.
      destruct (progressElement (client s)); left.
    + right. split; [done|]. intros (d' & b' & t' & a' & since' & e' & Hi1 & Haw').
      rewrite Hi in Hi1. simplify_eq. congruence.
  - exists (of_text "not started"). split.
    + unfold task_failed. destruct (progressElement (client s)); left.
    + left. split; [done|]. by eexists _, _, _, _, _, _.
  - unfold task_finished. destruct (updateProgress _) as [c1 fx2].
    case_decide; left.
  - exists (of_time (time (default 100 duration))). split.
    + unfold task_failed. destruct (progressElement (client s)); left.
    + right. split; [done|]. intros (d' & b' & t' & a' & since' & e' & Hi1 & _).
      rewrite Hi in Hi1. simplify_eq.
Qed.

Lemma log_carries_budget_witness :
  ∃ entry,
    logger_error ("Failed " +:+ quoted "load-theme")
      [field "duration" entry; field "error" (of_any (Js.Error "net down"))]
      ∈ effects_of C_running (Resume 0%nat) ∧
    (entry = of_text "not started" ∧ dependencies_rejected C_running 0%nat ∨
     entry = of_time (time 100) ∧ ¬ dependencies_rejected C_running 0%nat).
Proof.
  apply (log_carries_budget (boot (Some fill0)) "load-theme" (Some 100)
           (rejects (Js.Error "net down")) [] [Resume 0%nat]
           C_running (effects_after (Some fill0) scenario_C)
           C_rejected (effects_of C_running (Resume 0%nat))
           (Js.Rejected (Js.Error "net down"))).
  - vm_compute. reflexivity.
  - vm_compute. reflexivity.
  - vm_compute. reflexivity.
Defined.

(** ** The outcome of the wait for the dependencies *)

Lemma rejection_since_app inputs later more e :
  Js.rejection_since inputs later = Some e →
  Js.rejection_since inputs (later ++ more) = Some e.
Proof.
  induction later as [|[p [v|e']] later IH]; simpl; [done|auto|].
  case_decide; auto.
Qed.

Lemma values_of_app inputs hist more values :
  Js.values_of inputs hist = Some values →
  Js.values_of inputs (hist ++ more) = Some values.
Proof.
  rewrite !values_of_Some. intros Hall. eapply Forall2_impl; [done|].
  intros p v Hp. simpl in *. by rewrite state_of_app, Hp.
Qed.

Lemma awaited_final after since hist more r :
  (since ≤ length hist)%nat →
  NoDup (hist ++ more).*1 →
  awaited after since hist = r → r ≠ Js.AllPending →
  awaited after since (hist ++ more) = r.
Proof.
  intros Hsince Hnd <- Hr. unfold awaited in *. case_decide; [|done].
  unfold Js.Promise_all in *. rewrite take_app_le, drop_app_le by done.
  destruct (Js.rejected_input after (take since hist)) as [e1|]; [done|].
  destruct (Js.rejection_since after (drop since hist)) as [e2|] eqn:H2.
  { by rewrite (rejection_since_app _ _ _ _ H2). }
  rewrite take_drop in Hr.
  destruct (Js.values_of after hist) as [values|] eqn:Hv; [|done].
  destruct (Js.rejection_since after (drop since hist ++ more)) as [e3|] eqn:H3.
  { exfalso. apply rejection_since_Some in H3 as (p & Hp & Hin).
    apply values_of_Some in Hv.
    apply list_elem_of_lookup in Hp as [k Hk].
    destruct (Forall2_lookup_l _ _ _ _ _ Hv Hk) as (v & _ & Hst).
    apply state_of_elem in Hst.
    assert ((p, Js.Rejected e3) ∈ hist ++ more) as Hin'.
    { rewrite <-(take_drop since hist), <-app_assoc. apply elem_of_app. by right. }
    assert ((p, Js.Fulfilled v) ∈ hist ++ more) as Hst' by (apply elem_of_app; by left).
    by pose proof (settled_functional _ _ _ _ Hnd Hin' Hst'). }
  rewrite app_assoc, !take_drop. by rewrite Hv, (values_of_app _ _ _ _ Hv).
Qed.

Lemma since_bound s i d b task after since :
  reachable s →
  invocations s !! i = Some {| description := d; at_ := AwaitDeps b task after since |} →
  (since ≤ length (promises s))%nat.
Proof.
  intros Hreach. revert i d b task after since. revert s Hreach.
  apply (reachable_ind (λ s, ∀ i d b task after since,
    invocations s !! i = Some {| description := d; at_ := AwaitDeps b task after since |} →
    (since ≤ length (promises s))%nat)).
  { intros fill i d b task after since Hi. simpl in Hi. by rewrite lookup_nil in Hi. }
  intros s ev s' fx Hreach IH Hstep i d b task after since Hi.
  destruct ev as [d' duration task' after'|p o|j].
  - rewrite step_Call in Hstep. simplify_eq. simpl in *.
    apply lookup_app_Some in Hi as [Hi|[_ Hi]]; [by eapply IH|].
    destruct (i - length (invocations s))%nat; simpl in Hi; [by simplify_eq|].
    by rewrite lookup_nil in Hi.
  - apply step_Settle in Hstep as (_ & _ & ->). simpl in *. rewrite length_app.
    specialize (IH _ _ _ _ _ _ Hi). lia.
  - apply step_Resume in Hstep as (d' & fr & fr' & Hj & Hres & -> & Hinv).
    rewrite Hinv in Hi. destruct (decide (i = j)) as [->|Hne].
    + rewrite list_lookup_insert_eq in Hi by by eapply lookup_lt_Some.
      simplify_eq. inversion Hres.
    + rewrite list_lookup_insert_ne in Hi by done. by eapply IH.
Qed.

Lemma promises_grow evs : ∀ s s' fx,
  run s evs = Some (s', fx) → ∃ more, promises s' = promises s ++ more.
Proof.
  induction evs as [|ev evs IH]; intros s s' fx Hrun.
  - simpl in Hrun. simplify_eq. exists []. by rewrite app_nil_r.
  - rewrite run_cons in Hrun.
    destruct (step s ev) as [[s1 fx1]|] eqn:Hstep; [|done].
    destruct (run s1 evs) as [[s2 fx2]|] eqn:Hrest; [|done]. simplify_eq.
    destruct (IH _ _ _ Hrest) as (more & ->).
    destruct ev as [d duration task after|p o|i].
    + rewrite step_Call in Hstep. simplify_eq. by exists more.
    + apply step_Settle in Hstep as (_ & _ & ->). simpl.
      exists ((p, o) :: more). by rewrite <-app_assoc.
    + apply step_Resume in Hstep as (d & fr & fr' & _ & _ & -> & _). by exists more.
Qed.

(** X11. The outcome of the wait for the dependencies is final. Once the
    combined wait of an invocation has an outcome (all dependencies
    fulfilled, or one rejected), whatever happens before the event loop
    resumes the invocation, other dependencies settling included, the wait
    still has that outcome: the same values reach the work function, or the
    same reason rejects the task. *)
Theorem dependency_wait_is_final s i d b task after since r evs s' fx :
  reachable s →
  invocations s !! i = Some {| description := d; at_ := AwaitDeps b task after since |} →
  awaited after since (promises s) = r →
  r ≠ Js.AllPending →
  run s evs = Some (s', fx) →
  awaited after since (promises s') = r.
Proof.
  intros Hreach Hi Hr Hne Hrun.
  pose proof (reachable_consistent _ (reachable_run _ _ _ _ Hreach Hrun)) as [_ _ _ Hnd].
  destruct (promises_grow _ _ _ _ Hrun) as (more & Hmore). rewrite Hmore in *.
  apply awaited_final; [by eapply since_bound|done..].
Qed.

Lemma dependency_wait_is_final_witness :
  awaited [7; 8]%nat 0
    (promises (following sum_waiting
       [Settle 9%nat (Js.Rejected (Js.Error "late")); Call "B" None (resolves Js.undefined) []]))
  = Js.AllFulfilled [Js.number 1; Js.number 2].
Proof.
  apply (dependency_wait_is_final sum_waiting 0%nat "sum" 100 sum [7; 8]%nat 0%nat
           (Js.AllFulfilled [Js.number 1; Js.number 2])
           [Settle 9%nat (Js.Rejected (Js.Error "late")); Call "B" None (resolves Js.undefined) []]
           (following sum_waiting
              [Settle 9%nat (Js.Rejected (Js.Error "late"));
               Call "B" None (resolves Js.undefined) []])
           (effects_following sum_waiting
              [Settle 9%nat (Js.Rejected (Js.Error "late"));
               Call "B" None (resolves Js.undefined) []])).
  - apply state_after_reachable.
  - vm_compute. reflexivity.
  - vm_compute. reflexivity.
  - discriminate.
  - vm_compute. reflexivity.
Defined.

(** ** A load that succeeds *)

(** X12. A load that succeeds shows no failure: when the first settlement
    of [initialize()] is a fulfilment, whatever is attempted afterwards, an
    overlay that is present gets opacity "0" and exactly one listener that
    removes it after the transition; its classes, its message and the
    buttons next to it are untouched (no "error" class is added, no reload
    button appended), and the only thing logged is "Load completed" with the
    load timer [time(2500)]. *)
Theorem successful_load_hides_overlay p os p' fx :
  Lifecycle.initialized p = Lifecycle.pending →
  Lifecycle.settle_all (Lifecycle.resolves :: os) p = (p', fx) →
  Lifecycle.initialized p' = Lifecycle.fulfilled ∧
  fx = [logger_info "Load completed" [field "duration" (of_time (time 2500))]] ∧
  Lifecycle.errored p' = Lifecycle.errored p ∧
  Lifecycle.displayed p' = Lifecycle.displayed p ∧
  Lifecycle.reload_affordances p' = Lifecycle.reload_affordances p ∧
  match Lifecycle.overlay p with
  | Some ov =>
      ∃ ov', Lifecycle.overlay p' = Some ov' ∧
             Lifecycle.opacity ov' = "0" ∧
             Lifecycle.transitionend ov' =
               Lifecycle.transitionend ov ++ [Lifecycle.remove_overlay] ∧
             Lifecycle.classList ov' = Lifecycle.classList ov ∧
             Lifecycle.message ov' = Lifecycle.message ov
  | None => Lifecycle.overlay p' = None
  end.
Proof.
  intros Hp. simpl.
  destruct (Lifecycle.settle Lifecycle.resolves p) as [p1 fx1] eqn:Hsettle.
  unfold Lifecycle.settle in Hsettle. rewrite Hp in Hsettle. simplify_eq.
  rewrite settle_all_settled by done. intros; simplify_eq.
  unfold Lifecycle.errored, Lifecycle.displayed, Lifecycle.reload_affordances. simpl.
  destruct (Lifecycle.overlay p) as [ov|]; simpl; [|done].
  split_and!; [done..|]. by eexists.
Qed.

Lemma successful_load_hides_overlay_witness :
  let r := Lifecycle.settle_all [Lifecycle.resolves; Lifecycle.rejects_with "late"]
             loading_page in
  Lifecycle.initialized r.1 = Lifecycle.fulfilled ∧
  r.2 = [logger_info "Load completed" [field "duration" (of_time (time 2500))]] ∧
  Lifecycle.errored r.1 = false ∧
  Lifecycle.displayed r.1 = Some "Loading" ∧
  Lifecycle.reload_affordances r.1 = [] ∧
  ∃ ov', Lifecycle.overlay r.1 = Some ov' ∧
         Lifecycle.opacity ov' = "0" ∧
         Lifecycle.transitionend ov' = [Lifecycle.remove_overlay] ∧
         Lifecycle.classList ov' = [] ∧
         Lifecycle.message ov' =
           Some {| Lifecycle.text := "Loading"; Lifecycle.appended := [] |}.
Proof.
  apply (successful_load_hides_overlay loading_page [Lifecycle.rejects_with "late"]).
  - reflexivity.
  - vm_compute. reflexivity.
Defined.

(** ** Resumptions in either order *)

Lemma remove_first_middle d l1 l2 : d ∉ l1 → remove_first d (l1 ++ d :: l2) = l1 ++ l2.
Proof.
  induction l1 as [|x l1 IH]; simpl; intros Hd.
  - by case_decide.
  - apply not_elem_of_cons in Hd as [Hne Hd]. case_decide; [congruence|]. by rewrite IH.
Qed.

Lemma remove_first_absent d l : d ∉ l → remove_first d l = l.
Proof.
  induction l as [|x l IH]; simpl; [done|]. intros [Hne Hd]%not_elem_of_cons.
  case_decide; [congruence|]. by rewrite IH.
Qed.

Lemma remove_first_comm d1 d2 l :
  remove_first d1 (remove_first d2 l) = remove_first d2 (remove_first d1 l).
Proof.
  induction l as [|x l IH]; simpl; [done|].
  destruct (decide (x = d2)) as [E2|H2], (decide (x = d1)) as [E1|H1]; simpl.
  - congruence.
  - by rewrite decide_True.
  - by rewrite decide_True.
  - by rewrite !decide_False, IH.
Qed.

Lemma complete_tasks d c : tasks (complete d c) = remove_first d (tasks c).
Proof.
  destruct (decide (d ∈ tasks c)) as [Hin|Hout].
  - destruct (complete_removes_first d c Hin) as (l1 & l2 & -> & Hl1 & ->).
    by rewrite remove_first_middle.
  - rewrite remove_first_absent by done. unfold complete. simpl.
    apply indexOf_absent in Hout. by case_decide.
Qed.

Lemma client_eq c c' :
  start c = start c' → progressElement c = progressElement c' →
  tasks c = tasks c' → finishedTaskCount c = finishedTaskCount c' → c = c'.
Proof. destruct c, c'. simpl. by intros -> -> -> ->. Qed.

Lemma percentage_complete d c :
  percentage (complete d c) =
  Js.round_percent (finishedTaskCount c + 1)
    (Z.of_nat (length (remove_first d (tasks c))) + (finishedTaskCount c + 1)).
Proof. unfold percentage. by rewrite complete_tasks. Qed.

Lemma act_fields k c :
  match k with
  | unchanged => act k c = c
  | fails _ _ _ =>
      start (act k c) = start c ∧ tasks (act k c) = tasks c ∧
      finishedTaskCount (act k c) = finishedTaskCount c ∧
      progressElement (act k c) =
        (λ el, {| width := width el; backgroundColor := "red" |}) <$> progressElement c
  | finishes d _ =>
      start (act k c) = match remove_first d (tasks c) with [] => None | _ => start c end ∧
      tasks (act k c) = remove_first d (tasks c) ∧
      finishedTaskCount (act k c) = finishedTaskCount c + 1 ∧
      progressElement (act k c) =
        (λ el, {| width :=
                    Js.to_string
                      (Js.round_percent (finishedTaskCount c + 1)
                         (Z.of_nat (length (remove_first d (tasks c))) +
                          (finishedTaskCount c + 1))) +:+ "%";
                  backgroundColor := backgroundColor el |}) <$> progressElement c
  end.
Proof.
  destruct k as [|d started e|d started]; simpl; [done| |].
  - destruct (task_failed_fields d started e c) as (-> & -> & -> & _).
    by rewrite progressElement_task_failed.
  - destruct (task_finished_fields d started c) as (-> & -> & ->).
    rewrite progressElement_task_finished, progressElement_updateProgress.
    by rewrite percentage_complete, complete_tasks.
Qed.

Lemma start_after_two (l1 l2 final : list string) (st : option Time) :
  (l1 = [] → final = []) → (l2 = [] → final = []) →
  match final with [] => None | _ => match l2 with [] => None | _ => st end end =
  match final with [] => None | _ => match l1 with [] => None | _ => st end end.
Proof.
  destruct final as [|x final]; [done|]. intros H1 H2.
  destruct l1; [by specialize (H1 eq_refl)|]. destruct l2; [by specialize (H2 eq_refl)|done].
Qed.

Lemma act_comm k1 k2 c : act k1 (act k2 c) = act k2 (act k1 c).
Proof.
  destruct k1 as [|d1 st1 e1|d1 st1], k2 as [|d2 st2 e2|d2 st2]; try done.
  - pose proof (act_fields (fails d2 st2 e2) c) as (Hs2 & Ht2 & Hf2 & Hp2).
    pose proof (act_fields (fails d1 st1 e1) c) as (Hs1 & Ht1 & Hf1 & Hp1).
    pose proof (act_fields (fails d1 st1 e1) (act (fails d2 st2 e2) c)) as (Hs & Ht & Hf & Hp).
    pose proof (act_fields (fails d2 st2 e2) (act (fails d1 st1 e1) c)) as (Hs' & Ht' & Hf' & Hp').
    apply client_eq; [congruence| |congruence|congruence].
    rewrite Hp, Hp', Hp1, Hp2. by destruct (progressElement c).
  - pose proof (act_fields (finishes d2 st2) c) as (Hs2 & Ht2 & Hf2 & Hp2).
    pose proof (act_fields (fails d1 st1 e1) c) as (Hs1 & Ht1 & Hf1 & Hp1).
    pose proof (act_fields (fails d1 st1 e1) (act (finishes d2 st2) c)) as (Hs & Ht & Hf & Hp).
    pose proof (act_fields (finishes d2 st2) (act (fails d1 st1 e1) c)) as (Hs' & Ht' & Hf' & Hp').
    apply client_eq.
    + rewrite Hs, Hs', Hs2, Ht1, Hs1. done.
    + rewrite Hp, Hp', Hp1, Hp2, Ht1, Hf1. by destruct (progressElement c).
    + congruence.
    + congruence.
  - pose proof (act_fields (fails d2 st2 e2) c) as (Hs2 & Ht2 & Hf2 & Hp2).
    pose proof (act_fields (finishes d1 st1) c) as (Hs1 & Ht1 & Hf1 & Hp1).
    pose proof (act_fields (finishes d1 st1) (act (fails d2 st2 e2) c)) as (Hs & Ht & Hf & Hp).
    pose proof (act_fields (fails d2 st2 e2) (act (finishes d1 st1) c)) as (Hs' & Ht' & Hf' & Hp').
    apply client_eq.
    + rewrite Hs, Hs', Hs1, Ht2, Hs2. done.
    + rewrite Hp, Hp', Hp1, Hp2, Ht2, Hf2. by destruct (progressElement c).
    + congruence.
    + congruence.
  - pose proof (act_fields (finishes d2 st2) c) as (Hs2 & Ht2 & Hf2 & Hp2).
    pose proof (act_fields (finishes d1 st1) c) as (Hs1 & Ht1 & Hf1 & Hp1).
    pose proof (act_fields (finishes d1 st1) (act (finishes d2 st2) c)) as (Hs & Ht & Hf & Hp).
    pose proof (act_fields (finishes d2 st2) (act (finishes d1 st1) c)) as (Hs' & Ht' & Hf' & Hp').
    pose proof (remove_first_comm d1 d2 (tasks c)) as Hcomm.
    apply client_eq.
    + rewrite Hs, Hs', Hs1, Hs2, Ht1, Ht2, Hcomm.
      apply start_after_two.
      * intros Hnil. by rewrite Hnil.
      * intros Hnil. by rewrite <-Hcomm, Hnil.
    + rewrite Hp, Hp', Hp1, Hp2, Ht1, Ht2, Hf1, Hf2, Hcomm.
      by destruct (progressElement c).
    + congruence.
    + rewrite Hf, Hf', Hf1, Hf2. done.
Qed.

Lemma resumption_act d hist c fr c' fx fr' :
  resumption d hist c fr c' fx fr' →
  ∃ k, c' = act k c ∧ ∀ c0, ∃ fx0, resumption d hist c0 fr (act k c0) fx0 fr'.
Proof.
  intros Hres. destruct Hres as [? ? ? ? ? ? Haw Hw|b ? ? ? ? e Haw Hw|? ? ? ? e Haw
                                |started v|started e].
  - exists unchanged. split; [done|]. intros c0. eexists. by eapply work_started.
  - exists (fails d (Some (time b)) e). split; [done|]. intros c0. eexists.
    by eapply work_threw.
  - exists (fails d None e). split; [done|]. intros c0. eexists.
    by eapply dependency_rejected.
  - exists (finishes d started). split; [done|]. intros c0. eexists. apply work_resolved.
  - exists (fails d (Some started) e). split; [done|]. intros c0. eexists.
    apply work_rejected.
Qed.

(** X13. The order in which two invocations complete does not matter for
    where the client ends up. Take two different invocations whose next
    resumption calls no work function: each waits for the promise its work
    function returned, or its dependencies have rejected (a resumption that
    calls the work function is left out, the work function being free to call
    [task] itself). If both can be resumed, each can still be resumed after
    the other, and both orders lead to the same system (pending list,
    [finishedTaskCount], session timer, progress element and the state of
    every invocation); only the intermediate log lines and widths can
    differ. *)
Theorem resumptions_commute s i j s1 fx1 s2 fx2 :
  i ≠ j →
  completing s i →
  completing s j →
  step s (Resume i) = Some (s1, fx1) →
  step s (Resume j) = Some (s2, fx2) →
  completing s1 j ∧ completing s2 i ∧
  ∃ s12 fx1' fx2',
    step s1 (Resume j) = Some (s12, fx2') ∧
    step s2 (Resume i) = Some (s12, fx1').
Proof.
  intros Hne Hci Hcj (d1 & fr1 & fr1' & Hi & Hres1 & Hp1 & Hinv1)%step_Resume
                     (d2 & fr2 & fr2' & Hj & Hres2 & Hp2 & Hinv2)%step_Resume.
  assert (∀ s' k l, k ≠ l → promises s' = promises s →
            (∃ inv, invocations s' = <[k := inv]> (invocations s)) →
            completing s l → completing s' l) as Hkeep.
  { intros s' k l Hkl Hp (inv & Hinv) [(d & started & p & Hl)|(d & b & t & a & n & e & Hl & Haw)].
    - left. exists d, started, p. by rewrite Hinv, list_lookup_insert_ne.
    - right. exists d, b, t, a, n, e. by rewrite Hinv, list_lookup_insert_ne, Hp. }
  split; [by apply (Hkeep s1 i j); eauto|].
  split; [by apply (Hkeep s2 j i); eauto|].
  destruct (resumption_act _ _ _ _ _ _ _ Hres1) as (k1 & Hc1 & Hany1).
  destruct (resumption_act _ _ _ _ _ _ _ Hres2) as (k2 & Hc2 & Hany2).
  destruct (Hany2 (client s1)) as (fx2' & Hres2').
  destruct (Hany1 (client s2)) as (fx1' & Hres1').
  exists {| client := act k2 (client s1); promises := promises s;
            invocations := <[j := {| description := d2; at_ := fr2' |}]> (invocations s1) |},
         fx1', fx2'.
  split.
  - apply step_Resume. exists d2, fr2, fr2'. simpl. rewrite Hp1. split_and!; [|done..].
    rewrite Hinv1. by rewrite list_lookup_insert_ne.
  - apply step_Resume. exists d1, fr1, fr1'. simpl. rewrite Hp2. split_and!.
    + rewrite Hinv2. by rewrite list_lookup_insert_ne.
    + by rewrite Hc1, act_comm, <-Hc2.
    + done.
    + rewrite Hinv1, Hinv2. by apply list_insert_insert_ne.
Qed.

Lemma resumptions_commute_witness :
  completing (next B_running (Resume 0%nat)) 1%nat ∧
  completing (next B_running (Resume 1%nat)) 0%nat ∧
  ∃ s12 fx1' fx2',
    step (next B_running (Resume 0%nat)) (Resume 1%nat) = Some (s12, fx2') ∧
    step (next B_running (Resume 1%nat)) (Resume 0%nat) = Some (s12, fx1').
Proof.
  apply (resumptions_commute B_running 0%nat 1%nat _
           (effects_of B_running (Resume 0%nat)) _ (effects_of B_running (Resume 1%nat))).
  - discriminate.
  - left. exists "A", (time 300), (Js.Fulfilled Js.undefined). vm_compute. reflexivity.
  - left. exists "B", (time 150), (Js.Fulfilled Js.undefined). vm_compute. reflexivity.
  - vm_compute. reflexivity.
  - vm_compute. reflexivity.
Defined.

(** ** Failures and the other tasks *)

Lemma task_failed_effects_ext d started e c c' :
  (progressElement c' = None ↔ progressElement c = None) →
  (task_failed d started e c').2 = (task_failed d started e c).2.
Proof.
  intros Hpe. unfold task_failed.
  destruct (progressElement c) eqn:E, (progressElement c') eqn:E'; simpl; try done.
  - by destruct Hpe as [Hpe _]; specialize (Hpe eq_refl).
  - by destruct Hpe as [_ Hpe]; specialize (Hpe eq_refl).
Qed.

Lemma task_finished_effects_ext d started c c' :
  tasks c' = tasks c → finishedTaskCount c' = finishedTaskCount c → start c' = start c →
  (progressElement c' = None ↔ progressElement c = None) →
  (task_finished d started c').2 = (task_finished d started c).2.
Proof.
  intros Ht Hf Hs Hpe. unfold task_finished.
  assert (tasks (complete d c') = tasks (complete d c)) as Htc.
  { by rewrite !complete_tasks, Ht. }
  assert (finishedTaskCount (complete d c') = finishedTaskCount (complete d c)) as Hfc.
  { simpl. by rewrite Hf. }
  assert (start (complete d c') = start (complete d c)) as Hsc by done.
  assert (progressElement (complete d c') = None ↔ progressElement (complete d c) = None)
    as Hpc by done.
  generalize dependent (complete d c'). generalize dependent (complete d c).
  intros c0 c0' Htc Hfc Hsc Hpc.
  destruct (updateProgress_fields c0) as (Hs0 & Ht0 & Hf0 & _).
  destruct (updateProgress_fields c0') as (Hs0' & Ht0' & Hf0' & _).
  pose proof (updateProgress_effects c0) as Hfx.
  pose proof (updateProgress_effects c0') as Hfx'.
  rewrite (percentage_fields _ _ Htc Hfc) in Hfx'.
  destruct (updateProgress c0) as [c1 fx2], (updateProgress c0') as [c1' fx2'].
  simpl in *.
  assert (fx2' = fx2) as ->.
  { rewrite Hfx, Hfx'.
    destruct (progressElement c0) eqn:E, (progressElement c0') eqn:E'; try done.
    - by destruct Hpc as [Hpc _]; specialize (Hpc eq_refl).
    - by destruct Hpc as [_ Hpc]; specialize (Hpc eq_refl). }
  assert (tasks c1' = tasks c1) as Ht1 by congruence.
  assert (start c1' = start c1) as Hs1 by congruence.
  assert (finishedTaskCount c1' = finishedTaskCount c1) as Hf1 by congruence.
  rewrite Ht1, Hs1, Hf1. by case_decide.
Qed.

Lemma task_resume_after_failure d fr hist c d0 started0 e0 :
  (λ r, (r.1.2, r.2)) <$> task_resume d fr hist (task_failed d0 started0 e0 c).1 =
  (λ r, (r.1.2, r.2)) <$> task_resume d fr hist c.
Proof.
  destruct (task_failed_fields d0 started0 e0 c) as (Hs & Ht & Hf & _).
  assert (progressElement (task_failed d0 started0 e0 c).1 = None ↔
          progressElement c = None) as Hpe.
  { rewrite progressElement_task_failed. by destruct (progressElement c). }
  generalize dependent (task_failed d0 started0 e0 c).1. intros c' Hs Ht Hf Hpe.
  destruct fr as [b task after since|started [v|e]|o]; simpl; [| | |done].
  - destruct (awaited after since hist) as [|waitFor|e]; [done| |].
    + destruct (task waitFor) as [e|p]; [|done].
      pose proof (task_failed_effects_ext d (Some (time b)) e c c' Hpe) as Hfx.
      destruct (task_failed d (Some (time b)) e c'), (task_failed d (Some (time b)) e c).
      simpl in *. by rewrite Hfx.
    + pose proof (task_failed_effects_ext d None e c c' Hpe) as Hfx.
      destruct (task_failed d None e c'), (task_failed d None e c). simpl in *. by rewrite Hfx.
  - pose proof (task_finished_effects_ext d started c c' Ht Hf Hs Hpe) as Hfx.
    destruct (task_finished d started c'), (task_finished d started c). simpl in *.
    by rewrite Hfx.
  - pose proof (task_failed_effects_ext d (Some started) e c c' Hpe) as Hfx.
    destruct (task_failed d (Some started) e c'), (task_failed d (Some started) e c).
    simpl in *. by rewrite Hfx.
Qed.

(** X14. A failed task does not disturb the others: after the step on
    which one invocation fails, every other invocation can be resumed
    exactly when it could before, and its resumption logs the same lines,
    writes the same width and leaves that invocation in the same state as
    it would have without the failure. *)
Theorem failure_leaves_others_alone s i s1 fx1 d e j :
  step s (Resume i) = Some (s1, fx1) →
  invocations s1 !! i = Some {| description := d; at_ := Returned (Js.Rejected e) |} →
  j ≠ i →
  (λ r, (invocations r.1 !! j, r.2)) <$> step s1 (Resume j) =
  (λ r, (invocations r.1 !! j, r.2)) <$> step s (Resume j).
Proof.
  intros Hstep Hi' Hne.
  destruct (resumed_rejected _ _ _ _ _ _ Hstep Hi') as (started & fx0 & Hc & _).
  apply step_Resume in Hstep as (d' & fr & fr' & Hi & _ & Hp & Hinv).
  unfold step. rewrite Hinv, list_lookup_insert_ne by done. rewrite <-Hinv.
  destruct (invocations s !! j) as [[dj frj]|] eqn:Hj; [|done]. simpl.
  rewrite Hp, Hc.
  pose proof (task_resume_after_failure dj frj (promises s) (client s) d started e) as Hres.
  destruct (task_resume dj frj (promises s) (task_failed d started e (client s)).1)
    as [[[c1 fxa] fra]|],
    (task_resume dj frj (promises s) (client s)) as [[[c2 fxb] frb]|];
    simpl in Hres; simplify_eq; [|done]. simpl.
  rewrite !list_lookup_insert_eq; [done| |].
  - by eapply lookup_lt_Some.
  - rewrite Hinv, length_insert. by eapply lookup_lt_Some.
Qed.

Lemma failure_leaves_others_alone_witness :
  let s := state_after (Some fill0)
             [Call "load-theme" (Some 100) (rejects (Js.Error "net down")) [];
              Call "A" None (resolves Js.undefined) [];
              Resume 0%nat; Resume 1%nat] in
  (λ r, (invocations r.1 !! 1%nat, r.2)) <$> step (next s (Resume 0%nat)) (Resume 1%nat) =
  (λ r, (invocations r.1 !! 1%nat, r.2)) <$> step s (Resume 1%nat).
Proof.
  apply (failure_leaves_others_alone _ 0%nat _
           (effects_of (state_after (Some fill0)
              [Call "load-theme" (Some 100) (rejects (Js.Error "net down")) [];
               Call "A" None (resolves Js.undefined) [];
               Resume 0%nat; Resume 1%nat]) (Resume 0%nat))
           "load-theme" (Js.Error "net down") 1%nat).
  - vm_compute. reflexivity.
  - vm_compute. reflexivity.
  - discriminate.
Defined.

(** ** Registration followed by success *)

Lemma remove_first_snoc d l :
  remove_first d (l ++ [d]) = if decide (d ∈ l) then remove_first d l ++ [d] else l.
Proof.
  induction l as [|x l IH].
  - change (remove_first d ([] ++ [d])) with (if decide (d = d) then [] else [d]).
    destruct (decide (d = d)); [|done].
    destruct (decide (d ∈ [])) as [Hin|]; [by apply elem_of_nil in Hin | done].
  - change (remove_first d ((x :: l) ++ [d]))
      with (if decide (x = d) then l ++ [d] else x :: remove_first d (l ++ [d])).
    change (remove_first d (x :: l)) with (if decide (x = d) then l else x :: remove_first d l).
    rewrite IH. destruct (decide (x = d)) as [->|Hne].
    + destruct (decide (d ∈ d :: l)) as [|Hout]; [done|]. exfalso. apply Hout. by left.
    + destruct (decide (d ∈ l)) as [Hin|Hout], (decide (d ∈ x :: l)) as [Hin'|Hout'];
        try done.
      * exfalso. apply Hout'. by right.
      * apply elem_of_cons in Hin' as [?|?]; [congruence|done].
Qed.

(** X15. Registering a task and then completing it restores the pending
    list only if no other entry has the same description: the success path
    removes the first entry equal to the description, which is an older one
    when there is one, and then the entry just pushed stays at the end. In
    both cases [finishedTaskCount] has grown by one. *)
Theorem register_then_complete d c :
  (d ∉ tasks c → tasks (complete d (register d c)) = tasks c) ∧
  (∀ l1 l2, tasks c = l1 ++ d :: l2 → d ∉ l1 →
            tasks (complete d (register d c)) = l1 ++ l2 ++ [d]) ∧
  finishedTaskCount (complete d (register d c)) = finishedTaskCount c + 1.
Proof.
  assert (tasks (complete d (register d c)) =
          if decide (d ∈ tasks c) then remove_first d (tasks c) ++ [d] else tasks c) as Heq.
  { rewrite complete_tasks. simpl. apply remove_first_snoc. }
  split_and!; [| |done].
  - intros Hout. by rewrite Heq, decide_False.
  - intros l1 l2 Hl Hl1. rewrite Heq, decide_True.
    + by rewrite Hl, remove_first_middle, <-app_assoc.
    + rewrite Hl. apply elem_of_app. right. by left.
Qed.

(** X16. [finishedTaskCount] is not reset between bursts, so a later burst
    does not start from zero: when every task so far has finished (the
    pending list is empty and there was at least one call), the next call of
    [task] restarts the session timer with [time(1000)] and the progress it
    computes is at least 50. *)
Theorem later_burst_starts_high s d duration task after s' fx :
  reachable s →
  invocations s ≠ [] →
  tasks (client s) = [] →
  step s (Call d duration task after) = Some (s', fx) →
  start (client s) = None ∧
  start (client s') = Some (time 1000) ∧
  tasks (client s') = [d] ∧
  ∃ p, percentage (client s') = Js.Int p ∧ 50 ≤ p ≤ 100.
Proof.
  intros Hreach Hne Hnil Hstep.
  pose proof (reachable_consistent _ Hreach) as [_ _ Htimer _].
  destruct (all_succeeded_when_empty _ Hreach Hnil) as [_ Hcount].
  assert (1 ≤ finishedTaskCount (client s)) as Hone.
  { rewrite Hcount. destruct (invocations s); [done | simpl; lia]. }
  rewrite step_Call in Hstep. simplify_eq. simpl.
  destruct (task_enter_fields d (client s)) as (Hst & Hta & Hfi).
  rewrite Hst, Hta, Hnil, (proj2 Htimer Hnil). split_and!; [done..|].
  unfold percentage. rewrite Hta, Hfi, Hnil. simpl.
  apply round_percent_half; lia.
Qed.

Lemma later_burst_starts_high_witness :
  let s := next B_resolved (Resume 0%nat) in
  let s' := next s (Call "C" None (resolves Js.undefined) []) in
  start (client s) = None ∧
  start (client s') = Some (time 1000) ∧
  tasks (client s') = ["C"] ∧
  ∃ p, percentage (client s') = Js.Int p ∧ 50 ≤ p ≤ 100.
Proof.
  apply (later_burst_starts_high (next B_resolved (Resume 0%nat)) "C" None
           (resolves Js.undefined) [] _
           (effects_of (next B_resolved (Resume 0%nat))
              (Call "C" None (resolves Js.undefined) []))).
  - apply (reachable_step B_resolved (Resume 0%nat) _ (effects_of B_resolved (Resume 0%nat))).
    + apply (reachable_step B_running (Resume 1%nat) _ (effects_of B_running (Resume 1%nat))).
      * apply state_after_reachable.
      * vm_compute. reflexivity.
    + vm_compute. reflexivity.
  - vm_compute. discriminate.
  - vm_compute. reflexivity.
  - vm_compute. reflexivity.
Defined.
